(** * stock-simulator: the chart component and the derived metrics of [App.tsx]

    A shallow embedding of [src/App.tsx]: the window selector
    ([filteredData]), the derived metrics ([averageVolume], [slope],
    [priceChangePercent], [Indicator]), the position panel ([position]) and
    the chart ([StockChart]: projection, hit-testing, hover state, tooltip).

    Numbers.  A JavaScript [number] is modelled by [JS.num]: an exact
    rational, or one of the three non-finite values [+Infinity],
    [-Infinity] and [NaN].  Arithmetic on the finite values is exact: the
    rounding of binary64 is not modelled, and neither is the sign of zero (a
    zero divisor is taken as [+0]).  The non-finite values follow IEEE 754,
    so that an unguarded division by zero is visible in the model.  Where
    rounding decides a comparison the statements stay on the side that the
    code keeps as well; [Binary64] replays the ordinate of a point on the
    kernel's binary64 numbers to show such a case. *)

From Stdlib Require Import List ZArith QArith Qcanon Qround Lia Lqa Bool Sorted.
From Stdlib Require String.
From Stdlib Require Floats.
Import ListNotations.

Set Implicit Arguments.

(** ** JavaScript numbers *)

Module JS.

Inductive num : Type :=
| Fin (q : Qc)
| PInf
| NInf
| NaN.

(** Integer and fraction literals. *)
Definition qz (z : Z) : Qc := Q2Qc (inject_Z z).
Definition lit (z : Z) : num := Fin (qz z).
Definition frac (n : Z) (d : positive) : num := Fin (Q2Qc (n # d)).
Definition of_nat (n : nat) : num := lit (Z.of_nat n).

Definition is_finite (a : num) : bool :=
  match a with Fin _ => true | _ => false end.

(** The infinity whose sign is that of a comparison with zero; the zero case
    is the invalid operation. *)
Definition signed_inf (c : comparison) : num :=
  match c with Gt => PInf | Lt => NInf | Eq => NaN end.

(** [a + b] *)
Definition add (a b : num) : num :=
  match a, b with
  | NaN, _ | _, NaN => NaN
  | Fin x, Fin y => Fin (x + y)
  | PInf, NInf | NInf, PInf => NaN
  | PInf, _ | _, PInf => PInf
  | NInf, _ | _, NInf => NInf
  end.

(** [a - b] *)
Definition sub (a b : num) : num :=
  match a, b with
  | NaN, _ | _, NaN => NaN
  | Fin x, Fin y => Fin (x - y)
  | PInf, PInf | NInf, NInf => NaN
  | PInf, _ | _, NInf => PInf
  | NInf, _ | _, PInf => NInf
  end.

(** [a * b] *)
Definition mul (a b : num) : num :=
  match a, b with
  | NaN, _ | _, NaN => NaN
  | Fin x, Fin y => Fin (x * y)
  | Fin x, PInf | PInf, Fin x => signed_inf (x ?= 0)%Qc
  | Fin x, NInf | NInf, Fin x => signed_inf (0 ?= x)%Qc
  | PInf, PInf | NInf, NInf => PInf
  | PInf, NInf | NInf, PInf => NInf
  end.

(** [a / b]: a finite non-zero value over zero is an infinity, zero over zero
    is [NaN]. *)
Definition div (a b : num) : num :=
  match a, b with
  | NaN, _ | _, NaN => NaN
  | Fin x, Fin y =>
      match (y ?= 0)%Qc with
      | Eq => signed_inf (x ?= 0)%Qc
      | _ => Fin (x / y)
      end
  | Fin _, _ => Fin 0
  | PInf, Fin y => match (y ?= 0)%Qc with Lt => NInf | _ => PInf end
  | NInf, Fin y => match (y ?= 0)%Qc with Lt => PInf | _ => NInf end
  | _, _ => NaN
  end.

(** [a < b] and [a > b]: false as soon as one side is [NaN]. *)
Definition lt (a b : num) : bool :=
  match a, b with
  | NaN, _ | _, NaN => false
  | Fin x, Fin y => match (x ?= y)%Qc with Lt => true | _ => false end
  | NInf, NInf | PInf, _ => false
  | NInf, _ => true
  | Fin _, PInf => true
  | Fin _, NInf => false
  end.

Definition gt (a b : num) : bool := lt b a.

(** ToBoolean on a number: [0] and [NaN] are falsy. *)
Definition truthy (a : num) : bool :=
  match a with
  | Fin x => match (x ?= 0)%Qc with Eq => false | _ => true end
  | NaN => false
  | _ => true
  end.

(** [a || b] on numbers. *)
Definition or_else (a b : num) : num := if truthy a then a else b.

(** [a ?? b]: the left side unless it is [undefined]. *)
Definition nullish {A : Type} (a : option A) (b : A) : A :=
  match a with Some v => v | None => b end.

(** [Math.max(a, b)], [Math.min(a, b)]: [NaN] if either argument is. *)
Definition max2 (a b : num) : num :=
  match a, b with
  | NaN, _ | _, NaN => NaN
  | _, _ => if lt a b then b else a
  end.

Definition min2 (a b : num) : num :=
  match a, b with
  | NaN, _ | _, NaN => NaN
  | _, _ => if lt b a then b else a
  end.

(** [Math.max(...l)], [Math.min(...l)]: with no argument they are
    [-Infinity] and [+Infinity]. *)
Definition Math_max (l : list num) : num := fold_left max2 l NInf.
Definition Math_min (l : list num) : num := fold_left min2 l PInf.

(** [Math.round]: the integer nearest to the argument, halves going up. *)
Definition Math_round (a : num) : num :=
  match a with
  | Fin x => lit (Qfloor (x + Q2Qc (1 # 2))%Qc)
  | _ => a
  end.

(** *** Arrays *)

(** [l.at(i)]: a negative index counts from the end; [undefined] outside. *)
Definition at_ {A : Type} (l : list A) (i : Z) : option A :=
  let k := if (i <? 0)%Z then (Z.of_nat (length l) + i)%Z else i in
  if (k <? 0)%Z then None else nth_error l (Z.to_nat k).

(** [l[k]] for a number [k]: an element only when [k] is a non-negative
    integer below the length, [undefined] otherwise. *)
Definition get {A : Type} (l : list A) (k : num) : option A :=
  match k with
  | Fin q =>
      if (Zpos (Qden q) =? 1)%Z && (0 <=? Qnum q)%Z
      then nth_error l (Z.to_nat (Qnum q))
      else None
  | _ => None
  end.

(** [l.slice(start)]: a negative start counts from the end and is clamped at
    the beginning of the array. *)
Definition slice {A : Type} (l : list A) (start : Z) : list A :=
  let len := Z.of_nat (length l) in
  let k := if (start <? 0)%Z then Z.max (len + start) 0 else Z.min start len in
  skipn (Z.to_nat k) l.

(** [l.map((v, index) => f v index)] *)
Fixpoint mapi_from {A B : Type} (f : A -> nat -> B) (i : nat) (l : list A) : list B :=
  match l with
  | [] => []
  | v :: l' => f v i :: mapi_from f (S i) l'
  end.

Definition mapi {A B : Type} (f : A -> nat -> B) (l : list A) : list B :=
  mapi_from f 0 l.

End JS.

Import JS.

(** ** Data model *)

Record StockPoint : Type := {
  date : String.string;
  open : num;
  high : num;
  low : num;
  close : num;
  volume : num
}.

Record StockData : Type := {
  ticker : String.string;
  data : list StockPoint
}.

Inductive RangeKey : Type :=
| R1D | R2D | R5D | R10D | R1M | R3M | R6M | R1Y | RMAX.

(** An entry of [RANGE_MAP]: a number of bars, or the string ['ALL']. *)
Inductive RangeValue : Type :=
| Bars (n : Z)
| ALL.

Definition RANGE_MAP (k : RangeKey) : RangeValue :=
  match k with
  | R1D => Bars 1
  | R2D => Bars 2
  | R5D => Bars 5
  | R10D => Bars 10
  | R1M => Bars 22
  | R3M => Bars 66
  | R6M => ALL
  | R1Y => ALL
  | RMAX => ALL
  end.

(** ** The window and the derived metrics ([App]) *)

Definition filteredData (stockData : option StockData) (selectedRange : RangeKey)
  : list StockPoint :=
  match stockData with
  | None => []
  | Some sd =>
      match RANGE_MAP selectedRange with
      | ALL => data sd
      | Bars range => slice (data sd) (- range)
      end
  end.

(** [stockData?.data.at(i)] *)
Definition series_at (stockData : option StockData) (i : Z) : option StockPoint :=
  match stockData with
  | None => None
  | Some sd => at_ (data sd) i
  end.

Definition latestPoint (stockData : option StockData) (selectedRange : RangeKey)
  : option StockPoint :=
  match at_ (filteredData stockData selectedRange) (-1) with
  | Some p => Some p
  | None => series_at stockData (-1)
  end.

Definition previousPoint (stockData : option StockData) : option StockPoint :=
  series_at stockData (-2).

Definition currentPrice (stockData : option StockData) (selectedRange : RangeKey) : num :=
  nullish (option_map close (latestPoint stockData selectedRange)) (lit 0).

Definition previousClose (stockData : option StockData) (selectedRange : RangeKey) : num :=
  nullish (option_map close (previousPoint stockData))
          (currentPrice stockData selectedRange).

Definition priceChange (stockData : option StockData) (selectedRange : RangeKey) : num :=
  sub (currentPrice stockData selectedRange) (previousClose stockData selectedRange).

Definition priceChangePercent (stockData : option StockData) (selectedRange : RangeKey)
  : num :=
  if truthy (previousClose stockData selectedRange)
  then mul (div (priceChange stockData selectedRange)
                (previousClose stockData selectedRange)) (lit 100)
  else lit 0.

Definition averageVolume (filteredData : list StockPoint) : num :=
  if (length filteredData =? 0)%nat then lit 0
  else div (fold_left (fun sum point => add sum (volume point)) filteredData (lit 0))
           (of_nat (length filteredData)).

(** [slope]: reading [.close] of an [undefined] element is a [TypeError],
    which is [None] here. *)
Definition slope (filteredData : list StockPoint) : option num :=
  if (length filteredData <? 2)%nat then Some (lit 0)
  else
    match get filteredData (lit 0),
          get filteredData (sub (of_nat (length filteredData)) (lit 1)) with
    | Some p0, Some pn =>
        let first := close p0 in
        let last := close pn in
        Some (mul (div (sub last first) first) (lit 100))
    | _, _ => None
    end.

Inductive Trend : Type := Bullish | Bearish | Neutral.

(** The label computed by [Indicator]. *)
Definition Indicator (slope : num) : Trend :=
  if gt slope (frac 2 10) then Bullish
  else if lt slope (frac (-2) 10) then Bearish
  else Neutral.

(** ** The chart ([StockChart]) *)

Definition padding : num := lit 16.
Definition width : num := lit 640.
Definition height : num := lit 280.

Record ChartPoint : Type := {
  x : num;
  y : num;
  point : StockPoint
}.

Definition minPrice (data : list StockPoint) : num := Math_min (map low data).
Definition maxPrice (data : list StockPoint) : num := Math_max (map high data).
Definition priceRange (data : list StockPoint) : num :=
  or_else (sub (maxPrice data) (minPrice data)) (lit 1).

Definition project (data : list StockPoint) (point : StockPoint) (index : nat)
  : ChartPoint :=
  {| x := add padding
              (mul (div (of_nat index)
                        (max2 (lit 1) (sub (of_nat (length data)) (lit 1))))
                   (sub width (mul padding (lit 2))));
     y := sub (sub height padding)
              (mul (div (sub (close point) (minPrice data)) (priceRange data))
                   (sub height (mul padding (lit 2))));
     point := point |}.

Definition chartPoints (data : list StockPoint) : list ChartPoint :=
  mapi (project data) data.

(** The hover state is [hoverIndex : number | null]. *)
Definition HoverState : Type := option num.

Definition hoveredPoint (pts : list ChartPoint) (hoverIndex : HoverState)
  : option ChartPoint :=
  match hoverIndex with
  | Some i => get pts i
  | None => None
  end.

Record TooltipConfig : Type := {
  tooltipX : num;
  tooltipY : num;
  tooltipWidth : num;
  tooltipHeight : num;
  dateLabel : String.string
}.

(** The date label is the bar's date; its locale formatting is left out. *)
Definition tooltipConfig (hovered : option ChartPoint) : option TooltipConfig :=
  match hovered with
  | None => None
  | Some hp =>
      let tw := lit 180 in
      let th := lit 70 in
      let tx := sub (x hp) (div tw (lit 2)) in
      let tx := max2 padding (min2 tx (sub (sub width padding) tw)) in
      let ty := sub (sub (y hp) th) (lit 12) in
      let ty := if lt ty padding then add (y hp) (lit 12) else ty in
      Some {| tooltipX := tx; tooltipY := ty; tooltipWidth := tw;
              tooltipHeight := th; dateLabel := date (point hp) |}
  end.

(** A pointer event: [event.clientX] and the bounding rectangle of the
    [svg] element ([bounds.left], [bounds.width]). *)
Record MouseEvent : Type := {
  clientX : num;
  boundsLeft : num;
  boundsWidth : num
}.

(** The pointer's abscissa rescaled to the logical width. *)
Definition pointerX (event : MouseEvent) : num :=
  let scaleX := div width (boundsWidth event) in
  mul (sub (clientX event) (boundsLeft event)) scaleX.

(** The index that [handleMouseMove] passes to [setHoverIndex], for [n]
    chart points. *)
Definition hitIndex (n : nat) (event : MouseEvent) : num :=
  let ratio := div (sub (pointerX event) padding) (sub width (mul padding (lit 2))) in
  let clampedRatio := min2 (lit 1) (max2 (lit 0) ratio) in
  Math_round (mul clampedRatio (sub (of_nat n) (lit 1))).

Definition handleMouseMove (pts : list ChartPoint) (event : MouseEvent)
  (hoverIndex : HoverState) : HoverState :=
  if (length pts =? 0)%nat then hoverIndex
  else Some (hitIndex (length pts) event).

Definition handleMouseLeave (hoverIndex : HoverState) : HoverState := None.

(** What a render draws for the hover: the vertical line, the dot and the
    tooltip with the bar's high and low. *)
Record HoverGroup : Type := {
  groupKey : HoverState;
  lineX : num;
  dotX : num;
  dotY : num;
  tooltip : TooltipConfig;
  tooltipHigh : num;
  tooltipLow : num
}.

Inductive Rendered : Type :=
| Placeholder
| Svg (points : list (num * num)) (hover : option HoverGroup).

Definition StockChart (data : list StockPoint) (hoverIndex : HoverState) : Rendered :=
  if (length data =? 0)%nat then Placeholder
  else
    let pts := chartPoints data in
    let hovered := hoveredPoint pts hoverIndex in
    Svg (map (fun p => (x p, y p)) pts)
        match hovered, tooltipConfig hovered with
        | Some hp, Some cfg =>
            Some {| groupKey := hoverIndex; lineX := x hp; dotX := x hp; dotY := y hp;
                    tooltip := cfg; tooltipHigh := high (point hp);
                    tooltipLow := low (point hp) |}
        | _, _ => None
        end.

(** ** The component state across renders

    [App] holds [stockData] and [selectedRange]; [StockChart] holds
    [hoverIndex].  [StockChart] is rendered at one fixed place of [App]
    without a [key], so React re-renders the same instance when its [data]
    prop changes, and [useState] hands back the stored [hoverIndex]: the
    initial value [null] is only used by the first render that reaches the
    hook.  The events are the resolution of the fetch, a click on a range
    button, and the two pointer handlers of the [svg]. *)

Record AppState : Type := {
  st_stockData : option StockData;
  st_selectedRange : RangeKey;
  st_hoverIndex : HoverState
}.

Definition initialState : AppState :=
  {| st_stockData := None; st_selectedRange := R6M; st_hoverIndex := None |}.

Inductive Event : Type :=
| DataLoaded (parsed : StockData)
| RangeClick (range : RangeKey)
| PointerMove (event : MouseEvent)
| PointerLeave.

Definition window (st : AppState) : list StockPoint :=
  filteredData (st_stockData st) (st_selectedRange st).

Definition step (st : AppState) (e : Event) : AppState :=
  match e with
  | DataLoaded parsed =>
      {| st_stockData := Some parsed;
         st_selectedRange := st_selectedRange st;
         st_hoverIndex := st_hoverIndex st |}
  | RangeClick range =>
      {| st_stockData := st_stockData st;
         st_selectedRange := range;
         st_hoverIndex := st_hoverIndex st |}
  | PointerMove event =>
      {| st_stockData := st_stockData st;
         st_selectedRange := st_selectedRange st;
         st_hoverIndex :=
           handleMouseMove (chartPoints (window st)) event (st_hoverIndex st) |}
  | PointerLeave =>
      {| st_stockData := st_stockData st;
         st_selectedRange := st_selectedRange st;
         st_hoverIndex := handleMouseLeave (st_hoverIndex st) |}
  end.

Definition run (es : list Event) (st : AppState) : AppState :=
  fold_left step es st.

(** What the chart section shows in a state. *)
Definition view (st : AppState) : Rendered :=
  StockChart (window st) (st_hoverIndex st).

(** ** Vocabulary of the statements *)

(** The sum of a list of rationals, for the arithmetic mean. *)
Definition Qc_sum (l : list Qc) : Qc := fold_right Qcplus (qz 0) l.

(** A bar whose low, high and close are finite numbers. *)
Definition finite_bar (p : StockPoint) : Prop :=
  is_finite (low p) = true /\ is_finite (high p) = true /\
  is_finite (close p) = true.

(** The part [low <= high] of the invariant of a bar. *)
Definition low_le_high (p : StockPoint) : Prop := lt (high p) (low p) = false.



(** The divisor of the horizontal layout for [n] bars. *)
Definition denom (n : nat) : Z := Z.max 1 (Z.of_nat n - 1).

(** Equality test on numbers, on the underlying fractions. *)
Definition num_eqb (a b : num) : bool :=
  match a, b with
  | Fin x, Fin y => Qc_eq_bool x y
  | PInf, PInf | NInf, NInf | NaN, NaN => true
  | _, _ => false
  end.

(** ** The rest of [App]: sign classes and the position panel *)

(** [a >= b]: false as soon as one side is [NaN]. *)
Definition ge (a b : num) : bool :=
  match a, b with
  | NaN, _ | _, NaN => false
  | _, _ => negb (lt a b)
  end.

(** The class names ['positive'] and ['negative']. *)
Inductive SignClass : Type := Positive | Negative.

(** [v >= 0 ? 'positive' : 'negative'], the class of the price change in the
    header and of the unrealized gain in the position panel. *)
Definition signClass (v : num) : SignClass :=
  if ge v (lit 0) then Positive else Negative.

Record Position : Type := {
  shares : num;
  costBasis : num;
  marketValue : num;
  unrealizedGain : num;
  gainPercent : num
}.

(** [position], recomputed from [currentPrice]. *)
Definition position (currentPrice : num) : Position :=
  let shares := lit 120 in
  let costBasis := frac 217 2 in
  let marketValue := mul shares currentPrice in
  let totalCost := mul shares costBasis in
  let unrealizedGain := sub marketValue totalCost in
  let gainPercent :=
    if truthy totalCost then mul (div unrealizedGain totalCost) (lit 100)
    else lit 0 in
  {| shares := shares; costBasis := costBasis; marketValue := marketValue;
     unrealizedGain := unrealizedGain; gainPercent := gainPercent |}.

(** The order of the range keys by the number of bars they ask for, ['ALL']
    being the largest. *)
Definition range_le (k1 k2 : RangeKey) : bool :=
  match RANGE_MAP k1, RANGE_MAP k2 with
  | _, ALL => true
  | ALL, Bars _ => false
  | Bars a, Bars b => (a <=? b)%Z
  end.

(** The part [low <= close <= high] of the invariant of a bar. *)
Definition close_in_range (p : StockPoint) : Prop :=
  lt (close p) (low p) = false /\ lt (high p) (close p) = false.


(** ** The ordinate in binary64

    The expression of [y] in [chartPoints], evaluated as the code evaluates
    it, on binary64 numbers, for a close, a minimum price and a price range;
    and two closes one unit in the last place apart. *)

Module Binary64.

Import PrimFloat.
Local Open Scope float_scope.

Definition padding : float := 16.
Definition height : float := 280.

Definition y (close minPrice priceRange : float) : float :=
  height - padding - ((close - minPrice) / priceRange) * (height - padding * 2).

Definition close1 : float := 100.
Definition close2 : float := next_up 100.
Definition lowest : float := 0.
Definition range : float := 1000000.

End Binary64.

(** * Properties *)

(** ** Facts about the numbers *)

Section NumFacts.

Local Open Scope Qc_scope.

Lemma this_qz (z : Z) : this (qz z) = inject_Z z.
Proof.
  change (Qred (inject_Z z) = inject_Z z).
  apply Qred_identity. simpl. apply Z.gcd_1_r.
Qed.

Lemma this_plus (a b : Qc) : (this (a + b) == this a + this b)%Q.
Proof. unfold Qcplus, Q2Qc; cbn [this]. apply Qred_correct. Qed.

Lemma this_minus (a b : Qc) : (this (a - b) == this a - this b)%Q.
Proof.
  unfold Qcminus, Qcplus, Qcopp, Q2Qc; cbn [this].
  rewrite !Qred_correct. reflexivity.
Qed.

Lemma this_mult (a b : Qc) : (this (a * b) == this a * this b)%Q.
Proof. unfold Qcmult, Q2Qc; cbn [this]. apply Qred_correct. Qed.

Lemma this_div (a b : Qc) : (this (a / b) == this a / this b)%Q.
Proof.
  unfold Qcdiv, Qcmult, Qcinv, Q2Qc; cbn [this].
  rewrite !Qred_correct. reflexivity.
Qed.

Lemma this_Q2Qc (q : Q) : (this (Q2Qc q) == q)%Q.
Proof. cbn [this Q2Qc]. apply Qred_correct. Qed.

Lemma qz_lt (a b : Z) : qz a < qz b <-> (a < b)%Z.
Proof. unfold Qclt. rewrite !this_qz, <- Zlt_Qlt. reflexivity. Qed.

Lemma qz_le (a b : Z) : qz a <= qz b <-> (a <= b)%Z.
Proof. unfold Qcle. rewrite !this_qz, <- Zle_Qle. reflexivity. Qed.

Lemma qz_inj (a b : Z) : qz a = qz b -> a = b.
Proof.
  intros H. apply (f_equal this) in H. rewrite !this_qz in H.
  now injection H.
Qed.

Lemma qz_minus (a b : Z) : qz a - qz b = qz (a - b).
Proof.
  apply Qc_is_canon. rewrite this_minus, !this_qz.
  unfold Z.sub. rewrite inject_Z_plus, inject_Z_opp. reflexivity.
Qed.

Lemma compare_lt (a b : Qc) : (a ?= b) = Lt <-> a < b.
Proof. symmetry. apply Qclt_alt. Qed.

Lemma compare_eq (a b : Qc) : (a ?= b) = Eq <-> a = b.
Proof. symmetry. apply Qceq_alt. Qed.

Lemma compare_gt (a b : Qc) : (a ?= b) = Gt <-> b < a.
Proof. symmetry. apply Qcgt_alt. Qed.

Lemma lt_Fin (a b : Qc) : lt (Fin a) (Fin b) = true <-> a < b.
Proof.
  simpl. rewrite <- compare_lt. destruct (a ?= b); intuition congruence.
Qed.

Lemma lt_Fin_false (a b : Qc) : lt (Fin a) (Fin b) = false <-> b <= a.
Proof.
  rewrite <- not_true_iff_false, lt_Fin. split.
  - apply Qcnot_lt_le.
  - intros H1 H2. exact (Qcle_not_lt _ _ H1 H2).
Qed.

Lemma truthy_Fin (a : Qc) : truthy (Fin a) = false <-> a = 0.
Proof.
  simpl. rewrite <- compare_eq. destruct (a ?= 0); intuition congruence.
Qed.

Lemma div_Fin (a b : Qc) : b <> 0 -> div (Fin a) (Fin b) = Fin (a / b).
Proof.
  intros Hb. simpl. destruct (b ?= 0) eqn:E; try reflexivity.
  apply compare_eq in E. contradiction.
Qed.

Lemma div_Fin_zero (a : Qc) : div (Fin a) (Fin 0) = signed_inf (a ?= 0).
Proof. reflexivity. Qed.

Lemma is_finite_Fin (a : num) : is_finite a = true -> exists q, a = Fin q.
Proof. destruct a; try discriminate. eauto. Qed.

(** Closed equations between finite numbers are decided on the underlying
    fractions. *)
Lemma Fin_eq (a b : Qc) : (this a == this b)%Q -> Fin a = Fin b.
Proof. intros H. f_equal. now apply Qc_is_canon. Qed.

End NumFacts.

Ltac fin_eq := apply Fin_eq; vm_compute; reflexivity.

(** ** Facts about the arrays *)

Section ArrayFacts.

Context {A : Type}.

Lemma get_of_nat (l : list A) (i : nat) : get l (of_nat i) = nth_error l i.
Proof.
  unfold of_nat, lit, get. rewrite this_qz. simpl.
  destruct (0 <=? Z.of_nat i)%Z eqn:E.
  - now rewrite Nat2Z.id.
  - apply Z.leb_gt in E. lia.
Qed.

Lemma sub_of_nat (n m : nat) :
  (m <= n)%nat -> sub (of_nat n) (of_nat m) = of_nat (n - m).
Proof.
  intros H. unfold of_nat, lit. simpl. rewrite qz_minus.
  now rewrite Nat2Z.inj_sub.
Qed.

Lemma at_neg (l : list A) (i : Z) :
  (i < 0)%Z -> (0 <= Z.of_nat (length l) + i)%Z ->
  at_ l i = nth_error l (Z.to_nat (Z.of_nat (length l) + i)).
Proof.
  intros Hi Hl. unfold at_.
  rewrite (proj2 (Z.ltb_lt i 0)) by lia.
  now rewrite (proj2 (Z.ltb_ge _ 0)) by lia.
Qed.

Lemma at_last (pre : list A) (a : A) : at_ (pre ++ [a]) (-1) = Some a.
Proof.
  rewrite at_neg by (rewrite ?length_app; cbn [length]; lia).
  rewrite length_app. cbn [length].
  replace (Z.to_nat _) with (length pre) by lia.
  now rewrite nth_error_app2, Nat.sub_diag by lia.
Qed.

Lemma at_second_last (pre : list A) (a b : A) :
  at_ (pre ++ [a; b]) (-2) = Some a.
Proof.
  rewrite at_neg by (rewrite ?length_app; cbn [length]; lia).
  rewrite length_app. cbn [length].
  replace (Z.to_nat _) with (length pre) by lia.
  now rewrite nth_error_app2, Nat.sub_diag by lia.
Qed.

Lemma at_short (l : list A) (i : Z) :
  (Z.of_nat (length l) + i < 0)%Z -> at_ l i = None.
Proof.
  intros H. unfold at_.
  rewrite (proj2 (Z.ltb_lt i 0)) by lia.
  now rewrite (proj2 (Z.ltb_lt _ 0)) by lia.
Qed.

(** [l.slice(-n)] for a positive [n]: the last [min (length l) n] elements. *)
Lemma slice_neg (l : list A) (n : Z) :
  (0 < n)%Z ->
  (exists pre, l = pre ++ slice l (- n)) /\
  length (slice l (- n)) = Nat.min (length l) (Z.to_nat n).
Proof.
  intros Hn. unfold slice.
  rewrite (proj2 (Z.ltb_lt (- n) 0)) by lia.
  split.
  - eexists. symmetry. apply firstn_skipn.
  - rewrite length_skipn. lia.
Qed.

Lemma mapi_from_length {B : Type} (f : A -> nat -> B) (l : list A) (i : nat) :
  length (mapi_from f i l) = length l.
Proof. revert i. induction l; intros; simpl; auto. Qed.

Lemma mapi_from_nth {B : Type} (f : A -> nat -> B) (l : list A) (i j : nat) :
  nth_error (mapi_from f i l) j = option_map (fun v => f v (i + j)%nat) (nth_error l j).
Proof.
  revert i j. induction l as [|v l IH]; intros i [|j]; simpl; auto.
  - now rewrite Nat.add_0_r.
  - rewrite IH. now rewrite Nat.add_succ_comm.
Qed.

Lemma mapi_nth {B : Type} (f : A -> nat -> B) (l : list A) (j : nat) :
  nth_error (mapi f l) j = option_map (fun v => f v j) (nth_error l j).
Proof. unfold mapi. now rewrite mapi_from_nth. Qed.

End ArrayFacts.

(** ** Window selection *)

Lemma filteredData_suffix (sd : StockData) (k : RangeKey) :
  exists pre, data sd = pre ++ filteredData (Some sd) k.
Proof.
  destruct k; unfold filteredData, RANGE_MAP; try (exists []; reflexivity);
    match goal with
    | |- context [slice _ (- ?n)%Z] =>
        exact (proj1 (slice_neg (data sd) (n := n) ltac:(lia)))
    end.
Qed.

(** C5.  For a loaded series of [L] bars the window is a suffix of the
    series; under [1D], [2D], [5D], [10D], [1M], [3M] it has
    [min L n] bars for [n] = 1, 2, 5, 10, 22, 66, and under [6M], [1Y],
    [MAX] it is the series itself.  An empty series gives an empty window
    under every key. *)
Theorem filteredData_window (sd : StockData) (k : RangeKey) :
  let L := length (data sd) in
  let w := filteredData (Some sd) k in
  (exists pre, data sd = pre ++ w) /\
  match k with
  | R1D => length w = Nat.min L 1
  | R2D => length w = Nat.min L 2
  | R5D => length w = Nat.min L 5
  | R10D => length w = Nat.min L 10
  | R1M => length w = Nat.min L 22
  | R3M => length w = Nat.min L 66
  | R6M | R1Y | RMAX => w = data sd
  end /\
  match RANGE_MAP k with
  | Bars n => length w = Nat.min L (Z.to_nat n)
  | ALL => w = data sd
  end /\
  (forall t k', filteredData (Some {| ticker := t; data := [] |}) k' = []).
Proof.
  cbv zeta. split; [|split; [|split]].
  - apply filteredData_suffix.
  - destruct k; unfold filteredData, RANGE_MAP; try reflexivity;
      match goal with
      | |- context [slice _ (- ?n)%Z] =>
          exact (proj2 (slice_neg (data sd) (n := n) ltac:(lia)))
      end.
  - destruct k; unfold filteredData, RANGE_MAP; try reflexivity;
      match goal with
      | |- context [slice _ (- ?n)%Z] =>
          exact (proj2 (slice_neg (data sd) (n := n) ltac:(lia)))
      end.
  - intros t k'. destruct k'; reflexivity.
Qed.

(** ** Sentiment *)

Section Sentiment.

Local Open Scope Qc_scope.

Lemma frac_2_10 : frac 2 10 = Fin (Q2Qc (1 # 5)).
Proof. fin_eq. Qed.

Lemma frac_m2_10 : frac (-2) 10 = Fin (- Q2Qc (1 # 5)).
Proof. fin_eq. Qed.

(** C7.  The label depends on the slope only: above [0.2] it is [Bullish],
    below [-0.2] it is [Bearish], and between the two, bounds included, it
    is [Neutral].  The infinities fall on their side and [NaN] is
    [Neutral]. *)
Theorem Indicator_thresholds :
  (forall q : Qc, Q2Qc (1 # 5) < q -> Indicator (Fin q) = Bullish) /\
  (forall q : Qc, q < - Q2Qc (1 # 5) -> Indicator (Fin q) = Bearish) /\
  (forall q : Qc, - Q2Qc (1 # 5) <= q -> q <= Q2Qc (1 # 5) ->
     Indicator (Fin q) = Neutral) /\
  Indicator (frac 2 10) = Neutral /\
  Indicator (frac (-2) 10) = Neutral /\
  Indicator PInf = Bullish /\
  Indicator NInf = Bearish /\
  Indicator NaN = Neutral.
Proof.
  unfold Indicator, gt. rewrite frac_2_10, frac_m2_10.
  repeat split; try reflexivity.
  - intros q H. now rewrite (proj2 (lt_Fin _ _) H).
  - intros q H.
    assert (Hle : q <= Q2Qc (1 # 5)).
    { apply Qclt_le_weak. apply Qclt_trans with (- Q2Qc (1 # 5)); [exact H|reflexivity]. }
    rewrite (proj2 (lt_Fin_false _ _) Hle).
    now rewrite (proj2 (lt_Fin _ _) H).
  - intros q H1 H2.
    now rewrite (proj2 (lt_Fin_false _ _) H2), (proj2 (lt_Fin_false _ _) H1).
Qed.

Lemma Indicator_thresholds_witness :
  Indicator (frac 3 10) = Bullish /\
  Indicator (frac (-3) 10) = Bearish /\
  Indicator (lit 0) = Neutral.
Proof.
  destruct Indicator_thresholds as (Hup & Hdown & Hmid & _).
  split; [|split].
  - apply (Hup (Q2Qc (3 # 10))). reflexivity.
  - apply (Hdown (Q2Qc (-3 # 10))). reflexivity.
  - apply (Hmid (qz 0)); discriminate.
Defined.

End Sentiment.

(** ** Momentum slope *)

Lemma nth_error_last_app {A : Type} (l : list A) (a : A) :
  nth_error (l ++ [a]) (length l) = Some a.
Proof. now rewrite nth_error_app2, Nat.sub_diag by lia. Qed.

Lemma slope_boundary (p0 pn : StockPoint) (mid : list StockPoint) :
  slope (p0 :: mid ++ [pn]) =
  Some (mul (div (sub (close pn) (close p0)) (close p0)) (lit 100)).
Proof.
  unfold slope.
  assert (Hlen : length (p0 :: mid ++ [pn]) = S (S (length mid))).
  { simpl. rewrite length_app. simpl. lia. }
  rewrite Hlen. cbn [Nat.ltb Nat.leb].
  change (lit 0) with (of_nat 0) at 1. change (lit 1) with (of_nat 1).
  rewrite sub_of_nat by lia. rewrite !get_of_nat.
  replace (S (S (length mid)) - 1)%nat with (S (length mid)) by lia.
  cbn [nth_error]. now rewrite nth_error_last_app.
Qed.

(** C6.  A window of fewer than two bars has slope 0.  Otherwise the slope
    is [(last - first) / first * 100] on the closes of the first and the last
    bar of the window, and the division is not guarded: with a first close of
    0 the slope is [+Infinity], [-Infinity] or [NaN] according to the sign of
    the last close. *)
Theorem slope_spec :
  slope [] = Some (lit 0) /\
  (forall p, slope [p] = Some (lit 0)) /\
  (forall p0 mid pn,
     slope (p0 :: mid ++ [pn]) =
     Some (mul (div (sub (close pn) (close p0)) (close p0)) (lit 100))) /\
  (forall p0 mid pn (q : Qc),
     close p0 = lit 0 -> close pn = Fin q ->
     slope (p0 :: mid ++ [pn]) = Some (signed_inf (q ?= qz 0)%Qc)).
Proof.
  split; [reflexivity|]. split; [reflexivity|]. split.
  - intros. apply slope_boundary.
  - intros p0 mid pn q H0 Hn. rewrite slope_boundary, H0, Hn. f_equal.
    unfold lit at 1 2. cbn [sub].
    change (qz 0) with 0%Qc.
    replace (q - 0)%Qc with q by ring.
    rewrite div_Fin_zero.
    destruct (q ?= 0)%Qc; reflexivity.
Qed.

Lemma slope_spec_witness :
  let bar c := {| date := String.EmptyString; open := lit c; high := lit c;
                  low := lit c; close := lit c; volume := lit 1 |} in
  slope [bar 0%Z; bar 7%Z; bar 5%Z] = Some PInf.
Proof.
  intros bar.
  exact (proj2 (proj2 (proj2 slope_spec)) (bar 0%Z) [bar 7%Z] (bar 5%Z) (qz 5)
           eq_refl eq_refl).
Defined.

(** ** Average volume *)

Section Average.

Local Open Scope Qc_scope.

Lemma fold_add_volume (w : list StockPoint) (vs : list Qc) (acc : Qc) :
  map volume w = map Fin vs ->
  fold_left (fun sum point => add sum (volume point)) w (Fin acc) =
  Fin (acc + Qc_sum vs).
Proof.
  revert vs acc. induction w as [|p w IH]; intros [|v vs] acc H;
    try discriminate.
  - simpl. f_equal. change (qz 0) with 0. ring.
  - simpl in H. injection H as Hv Hw. cbn [fold_left]. rewrite Hv.
    cbn [add]. rewrite (IH vs (acc + v) Hw). f_equal. simpl. ring.
Qed.

(** C8.  The average volume of an empty window is 0; that of a non-empty
    window with finite volumes is their sum divided by their number.  Only
    the bars of the window count: a series with volumes 1000, 100, 200 under
    [2D] averages to 150, and volumes 100, 200, 300 average to 200. *)
Theorem averageVolume_mean :
  averageVolume [] = lit 0 /\
  (forall (w : list StockPoint) (vs : list Qc),
     w <> [] -> map volume w = map Fin vs ->
     averageVolume w = Fin (Qc_sum vs / qz (Z.of_nat (length w)))) /\
  (forall b1 b2 b3,
     volume b1 = lit 100 -> volume b2 = lit 200 -> volume b3 = lit 300 ->
     averageVolume [b1; b2; b3] = lit 200) /\
  (forall t b0 b1 b2,
     volume b0 = lit 1000 -> volume b1 = lit 100 -> volume b2 = lit 200 ->
     averageVolume
       (filteredData (Some {| ticker := t; data := [b0; b1; b2] |}) R2D) =
     lit 150).
Proof.
  assert (Hmean : forall (w : list StockPoint) (vs : list Qc),
     w <> [] -> map volume w = map Fin vs ->
     averageVolume w = Fin (Qc_sum vs / qz (Z.of_nat (length w)))).
  { intros w vs Hne Hvs. unfold averageVolume.
    destruct w as [|p w]; [contradiction|].
    cbn [length Nat.eqb]. unfold lit at 1.
    rewrite (fold_add_volume _ vs _ Hvs). unfold of_nat, lit.
    rewrite div_Fin.
    - f_equal. change (qz 0) with 0. f_equal. ring.
    - intros H. change 0 with (qz 0) in H. apply qz_inj in H.
      cbn [length] in H. lia. }
  split; [reflexivity|]. split; [exact Hmean|]. split.
  - intros b1 b2 b3 H1 H2 H3.
    rewrite (Hmean [b1; b2; b3] [qz 100; qz 200; qz 300]);
      [fin_eq|discriminate|simpl; now rewrite H1, H2, H3].
  - intros t b0 b1 b2 H0 H1 H2.
    change (filteredData _ R2D) with [b1; b2].
    rewrite (Hmean [b1; b2] [qz 100; qz 200]);
      [fin_eq|discriminate|simpl; now rewrite H1, H2].
Qed.

Lemma averageVolume_mean_witness :
  let bar v := {| date := String.EmptyString; open := lit 1; high := lit 1;
                  low := lit 1; close := lit 1; volume := lit v |} in
  averageVolume [bar 100%Z; bar 200%Z; bar 300%Z] = lit 200 /\
  averageVolume [bar 4%Z; bar 6%Z] = Fin (Qc_sum [qz 4; qz 6] / qz 2).
Proof.
  intros bar. destruct averageVolume_mean as (_ & Hmean & H3 & _). split.
  - apply H3; reflexivity.
  - apply (Hmean [bar 4%Z; bar 6%Z] [qz 4; qz 6]); [discriminate|reflexivity].
Defined.

End Average.

(** ** Latest and previous close *)

Section PriceChange.

Local Open Scope Qc_scope.

Lemma at_m1_rev {A : Type} (l : list A) : at_ l (-1) = hd_error (rev l).
Proof.
  rewrite <- (rev_involutive l) at 1. destruct (rev l) as [|b r]; simpl.
  - reflexivity.
  - apply at_last.
Qed.

Lemma at_m2_rev {A : Type} (l : list A) : at_ l (-2) = nth_error (rev l) 1.
Proof.
  rewrite <- (rev_involutive l) at 1. destruct (rev l) as [|b [|a r]]; simpl.
  - reflexivity.
  - reflexivity.
  - rewrite <- app_assoc. apply at_second_last.
Qed.

(** The latest bar is the last bar of the series whatever the range: a
    non-empty window ends where the series ends. *)
Lemma latestPoint_last (sd : StockData) (k : RangeKey) :
  latestPoint (Some sd) k = hd_error (rev (data sd)).
Proof.
  unfold latestPoint, series_at. rewrite !at_m1_rev.
  destruct (filteredData_suffix sd k) as [pre Hpre].
  remember (filteredData (Some sd) k) as w eqn:Hw. clear Hw.
  rewrite Hpre, rev_app_distr.
  destruct (rev w) as [|p r]; reflexivity.
Qed.

(** C1.  For a series with finite closes: the latest bar is the last bar of
    the window, or of the series when the window is empty, and the price is 0
    when there is none; the previous bar is the second-to-last bar of the
    series under every range; the change is the latest close minus the
    previous close, and 0 without a previous bar; the percentage is
    [change / previous.close * 100], and 0 when the previous close is 0 or
    missing. *)
Theorem price_change_spec (sd : StockData) (k : RangeKey) :
  Forall (fun p => is_finite (close p) = true) (data sd) ->
  let w := filteredData (Some sd) k in
  latestPoint (Some sd) k =
    match rev w with
    | p :: _ => Some p
    | [] => hd_error (rev (data sd))
    end /\
  match rev (data sd) with
  | [] =>
      previousPoint (Some sd) = None /\
      currentPrice (Some sd) k = lit 0 /\
      priceChange (Some sd) k = lit 0 /\
      priceChangePercent (Some sd) k = lit 0
  | [b] =>
      previousPoint (Some sd) = None /\
      currentPrice (Some sd) k = close b /\
      priceChange (Some sd) k = lit 0 /\
      priceChangePercent (Some sd) k = lit 0
  | b :: a :: _ =>
      previousPoint (Some sd) = Some a /\
      currentPrice (Some sd) k = close b /\
      priceChange (Some sd) k = sub (close b) (close a) /\
      (close a = lit 0 -> priceChangePercent (Some sd) k = lit 0) /\
      (close a <> lit 0 ->
       priceChangePercent (Some sd) k =
       mul (div (sub (close b) (close a)) (close a)) (lit 100))
  end /\
  currentPrice None k = lit 0 /\
  priceChange None k = lit 0 /\
  priceChangePercent None k = lit 0.
Proof.
  intros Hfin w. split; [|split; [|repeat split; fin_eq]].
  - unfold latestPoint, series_at. rewrite !at_m1_rev. subst w.
    destruct (rev (filteredData (Some sd) k)); reflexivity.
  - assert (Hin : forall p, In p (rev (data sd)) -> exists q, close p = Fin q).
    { intros p Hp. apply is_finite_Fin. rewrite Forall_forall in Hfin.
      apply Hfin. now apply in_rev. }
    unfold priceChangePercent, priceChange, previousClose, currentPrice,
      previousPoint.
    rewrite latestPoint_last. unfold series_at. rewrite at_m2_rev.
    destruct (rev (data sd)) as [|b [|a r]]; cbn [hd_error nth_error option_map nullish].
    + repeat split; fin_eq.
    + destruct (Hin b (or_introl eq_refl)) as [qb Hb]. rewrite Hb.
      assert (Hsub : sub (Fin qb) (Fin qb) = lit 0).
      { cbn [sub]. unfold lit. f_equal. change (qz 0) with 0. ring. }
      rewrite Hsub. repeat split.
      destruct (truthy (Fin qb)) eqn:T; [|reflexivity].
      assert (Hq : qb <> 0).
      { intros H. apply truthy_Fin in H. congruence. }
      unfold lit. rewrite (div_Fin _ Hq). cbn [mul]. apply f_equal.
      change (qz 0) with 0. unfold Qcdiv. ring.
    + destruct (Hin a (or_intror (or_introl eq_refl))) as [qa Ha].
      rewrite Ha. repeat split.
      * intros H0. injection H0 as H0.
        now rewrite (proj2 (truthy_Fin qa) H0).
      * intros Hne. destruct (truthy (Fin qa)) eqn:T; [reflexivity|].
        apply truthy_Fin in T. subst qa. now elim Hne.
Qed.

Lemma price_change_spec_witness :
  let bar c := {| date := String.EmptyString; open := lit c; high := lit c;
                  low := lit c; close := lit c; volume := lit 1 |} in
  let sd := {| ticker := String.EmptyString;
               data := [bar 10%Z; bar 12%Z; bar 9%Z] |} in
  previousPoint (Some sd) = Some (bar 12%Z) /\
  priceChange (Some sd) R1D = sub (lit 9) (lit 12).
Proof.
  intros bar sd.
  assert (Hfin : Forall (fun p => is_finite (close p) = true) (data sd)).
  { repeat constructor. }
  destruct (price_change_spec sd R1D Hfin) as (_ & (Hprev & _ & Hchange & _) & _).
  split; [exact Hprev|exact Hchange].
Defined.

End PriceChange.

(** ** The projection *)

Section Projection.

Local Open Scope Qc_scope.

Lemma sub_lit (a b : Z) : sub (lit a) (lit b) = lit (a - b).
Proof. unfold lit. cbn [sub]. now rewrite qz_minus. Qed.

Lemma max2_lit (a b : Z) : max2 (lit a) (lit b) = lit (Z.max a b).
Proof.
  unfold lit, max2. destruct (lt (Fin (qz a)) (Fin (qz b))) eqn:E.
  - apply lt_Fin in E. apply (proj1 (qz_lt _ _)) in E. now rewrite Z.max_r by lia.
  - apply lt_Fin_false in E. apply (proj1 (qz_le _ _)) in E. now rewrite Z.max_l by lia.
Qed.

Lemma qz_denom_pos (n : nat) : 0 < qz (denom n).
Proof. change 0 with (qz 0). apply qz_lt. unfold denom. lia. Qed.

Lemma qz_denom_neq (n : nat) : qz (denom n) <> 0.
Proof.
  intros H. pose proof (qz_denom_pos n) as Hp. rewrite H in Hp.
  exact (Qclt_not_eq _ _ Hp eq_refl).
Qed.

(** The abscissa depends on the index and on the number of bars only. *)
Lemma x_project (data : list StockPoint) (p : StockPoint) (i : nat) :
  x (project data p i) =
  Fin (qz 16 + qz (Z.of_nat i) / qz (denom (length data)) * qz 608).
Proof.
  unfold project; cbn [x]. unfold of_nat, padding, width.
  change (mul (lit 16) (lit 2)) with (Fin (qz 16 * qz 2)).
  rewrite sub_lit, max2_lit. fold (denom (length data)). unfold lit.
  rewrite (div_Fin _ (qz_denom_neq _)). cbn [sub mul add].
  reflexivity.
Qed.

Lemma chartPoints_nth (data : list StockPoint) (i : nat) :
  nth_error (chartPoints data) i =
  option_map (fun p => project data p i) (nth_error data i).
Proof. unfold chartPoints. apply mapi_nth. Qed.

Lemma chartPoints_length (data : list StockPoint) :
  length (chartPoints data) = length data.
Proof. unfold chartPoints, mapi. apply mapi_from_length. Qed.

Lemma chartPoints_x (data : list StockPoint) (i : nat) (cp : ChartPoint) :
  nth_error (chartPoints data) i = Some cp ->
  x cp = Fin (qz 16 + qz (Z.of_nat i) / qz (denom (length data)) * qz 608) /\
  (i < length data)%nat.
Proof.
  rewrite chartPoints_nth. intros H.
  destruct (nth_error data i) as [p|] eqn:E; [|discriminate].
  injection H as <-. split; [apply x_project|].
  apply nth_error_Some. congruence.
Qed.

End Projection.

(** ** The price range *)

Section PriceRange.

Local Open Scope Qc_scope.

Lemma min2_Fin (a b : Qc) :
  exists m, min2 (Fin a) (Fin b) = Fin m /\ m <= a /\ m <= b /\ (m = a \/ m = b).
Proof.
  unfold min2. destruct (lt (Fin b) (Fin a)) eqn:E.
  - apply lt_Fin in E. exists b. repeat split; auto using Qcle_refl, Qclt_le_weak.
  - apply lt_Fin_false in E. exists a. repeat split; auto using Qcle_refl.
Qed.

Lemma max2_Fin (a b : Qc) :
  exists m, max2 (Fin a) (Fin b) = Fin m /\ a <= m /\ b <= m /\ (m = a \/ m = b).
Proof.
  unfold max2. destruct (lt (Fin a) (Fin b)) eqn:E.
  - apply lt_Fin in E. exists b. repeat split; auto using Qcle_refl, Qclt_le_weak.
  - apply lt_Fin_false in E. exists a. repeat split; auto using Qcle_refl.
Qed.

Lemma fold_min2_Fin (qs : list Qc) (a : Qc) :
  exists m, fold_left min2 (map Fin qs) (Fin a) = Fin m /\
            m <= a /\ (forall q, In q qs -> m <= q) /\ (m = a \/ In m qs).
Proof.
  revert a. induction qs as [|q qs IH]; intros a; cbn [map fold_left].
  - exists a. repeat split; auto using Qcle_refl. intros q [].
  - destruct (min2_Fin a q) as (a' & -> & Ha & Hq & Hor).
    destruct (IH a') as (m & -> & Hm & Hall & Hin).
    exists m. repeat split.
    + eapply Qcle_trans; eauto.
    + intros q' [<-|Hq']; [eapply Qcle_trans; eauto|auto].
    + destruct Hin as [->|Hin]; [|right; now right].
      destruct Hor as [->| ->]; [now left|right; now left].
Qed.

Lemma fold_max2_Fin (qs : list Qc) (a : Qc) :
  exists m, fold_left max2 (map Fin qs) (Fin a) = Fin m /\
            a <= m /\ (forall q, In q qs -> q <= m) /\ (m = a \/ In m qs).
Proof.
  revert a. induction qs as [|q qs IH]; intros a; cbn [map fold_left].
  - exists a. repeat split; auto using Qcle_refl. intros q [].
  - destruct (max2_Fin a q) as (a' & -> & Ha & Hq & Hor).
    destruct (IH a') as (m & -> & Hm & Hall & Hin).
    exists m. repeat split.
    + eapply Qcle_trans; eauto.
    + intros q' [<-|Hq']; [eapply Qcle_trans; eauto|auto].
    + destruct Hin as [->|Hin]; [|right; now right].
      destruct Hor as [->| ->]; [now left|right; now left].
Qed.

(** The minimum and the maximum of a non-empty list of finite numbers are
    elements of the list that bound the others. *)
Lemma Math_min_Fin (qs : list Qc) :
  qs <> [] ->
  exists m, Math_min (map Fin qs) = Fin m /\
            (forall q, In q qs -> m <= q) /\ In m qs.
Proof.
  destruct qs as [|q qs]; [contradiction|intros _].
  unfold Math_min. cbn [map fold_left].
  change (min2 PInf (Fin q)) with (Fin q).
  destruct (fold_min2_Fin qs q) as (m & -> & Hm & Hall & Hin).
  exists m. repeat split.
  - intros q' [<-|Hq']; auto.
  - destruct Hin as [->|Hin]; [now left|now right].
Qed.

Lemma Math_max_Fin (qs : list Qc) :
  qs <> [] ->
  exists m, Math_max (map Fin qs) = Fin m /\
            (forall q, In q qs -> q <= m) /\ In m qs.
Proof.
  destruct qs as [|q qs]; [contradiction|intros _].
  unfold Math_max. cbn [map fold_left].
  change (max2 NInf (Fin q)) with (Fin q).
  destruct (fold_max2_Fin qs q) as (m & -> & Hm & Hall & Hin).
  exists m. repeat split.
  - intros q' [<-|Hq']; auto.
  - destruct Hin as [->|Hin]; [now left|now right].
Qed.

Lemma finite_map (f : StockPoint -> num) (l : list StockPoint) :
  Forall (fun p => is_finite (f p) = true) l ->
  exists qs, map f l = map Fin qs.
Proof.
  induction 1 as [|p l Hp _ [qs IH]].
  - now exists [].
  - destruct (is_finite_Fin _ Hp) as [q Hq]. exists (q :: qs).
    simpl. now rewrite Hq, IH.
Qed.

Lemma in_map_Fin (f : StockPoint -> num) (l : list StockPoint) (qs : list Qc) :
  map f l = map Fin qs ->
  (forall q, In q qs -> exists p, In p l /\ f p = Fin q) /\
  (forall p, In p l -> exists q, In q qs /\ f p = Fin q).
Proof.
  revert qs. induction l as [|p l IH]; intros [|q qs] H; try discriminate.
  - split; intros ? [].
  - simpl in H. injection H as Hq Hl. destruct (IH qs Hl) as [IH1 IH2]. split.
    + intros q' [<-|Hin]; [exists p; split; [now left|assumption]|].
      destruct (IH1 q' Hin) as (p' & ? & ?). exists p'. split; [now right|assumption].
    + intros p' [<-|Hin]; [exists q; split; [now left|assumption]|].
      destruct (IH2 p' Hin) as (q' & ? & ?). exists q'. split; [now right|assumption].
Qed.

(** Over finite bars the price bounds are a low and a high of the window. *)
Lemma price_bounds (data : list StockPoint) :
  data <> [] -> Forall finite_bar data ->
  exists m M,
    minPrice data = Fin m /\ maxPrice data = Fin M /\
    (exists p, In p data /\ low p = Fin m) /\
    (exists p, In p data /\ high p = Fin M) /\
    (forall p l, In p data -> low p = Fin l -> m <= l) /\
    (forall p h, In p data -> high p = Fin h -> h <= M).
Proof.
  intros Hne Hfin.
  assert (Hlow : Forall (fun p => is_finite (low p) = true) data).
  { eapply Forall_impl; [|exact Hfin]. intros p Hp. apply Hp. }
  assert (Hhigh : Forall (fun p => is_finite (high p) = true) data).
  { eapply Forall_impl; [|exact Hfin]. intros p Hp. apply Hp. }
  destruct (finite_map low Hlow) as [ls Hls].
  destruct (finite_map high Hhigh) as [hs Hhs].
  destruct (in_map_Fin _ _ _ Hls) as [Hl1 Hl2].
  destruct (in_map_Fin _ _ _ Hhs) as [Hh1 Hh2].
  assert (Hlne : ls <> []).
  { intros ->. destruct data; [contradiction|discriminate]. }
  assert (Hhne : hs <> []).
  { intros ->. destruct data; [contradiction|discriminate]. }
  destruct (Math_min_Fin Hlne) as (m & Hm & Hmall & Hmin).
  destruct (Math_max_Fin Hhne) as (M & HM & HMall & HMin).
  exists m, M. unfold minPrice, maxPrice. rewrite Hls, Hhs.
  repeat split; auto.
  - intros p l Hp Hl. destruct (Hl2 p Hp) as (q & Hq & Hpq).
    rewrite Hl in Hpq. injection Hpq as ->. auto.
  - intros p h Hp Hh. destruct (Hh2 p Hp) as (q & Hq & Hpq).
    rewrite Hh in Hpq. injection Hpq as ->. auto.
Qed.

End PriceRange.

(** ** Ordinates *)

Section Ordinates.

Local Open Scope Qc_scope.

Lemma qz_plus (a b : Z) : qz a + qz b = qz (a + b).
Proof.
  apply Qc_is_canon. rewrite this_plus, !this_qz.
  now rewrite inject_Z_plus.
Qed.

Lemma y_project (data : list StockPoint) (p : StockPoint) (i : nat) (m r c : Qc) :
  minPrice data = Fin m -> priceRange data = Fin r -> r <> 0 ->
  close p = Fin c ->
  y (project data p i) = Fin (qz 264 - (c - m) / r * qz 248).
Proof.
  intros Hm Hr Hr0 Hc. unfold project; cbn [y].
  rewrite Hm, Hr, Hc. cbn [sub]. rewrite (div_Fin _ Hr0).
  reflexivity.
Qed.

Lemma chartPoints_In (data : list StockPoint) (cp : ChartPoint) :
  In cp (chartPoints data) ->
  exists p i, In p data /\ cp = project data p i.
Proof.
  intros H. apply In_nth_error in H. destruct H as [i Hi].
  rewrite chartPoints_nth in Hi.
  destruct (nth_error data i) as [p|] eqn:E; [|discriminate].
  injection Hi as <-. exists p, i. split; [|reflexivity].
  eapply nth_error_In; eauto.
Qed.


(** The range is positive as soon as the lows do not exceed the highs. *)
Lemma priceRange_pos (data : list StockPoint) :
  data <> [] -> Forall finite_bar data -> Forall low_le_high data ->
  exists m r, minPrice data = Fin m /\ priceRange data = Fin r /\ 0 < r.
Proof.
  intros Hne Hfin Hwf.
  destruct (price_bounds Hne Hfin) as (m & M & Hm & HM & (p & Hp & Hpm) & _ & _ & Hup).
  assert (HmM : m <= M).
  { rewrite Forall_forall in Hwf. pose proof (Hwf p Hp) as Hlh.
    unfold low_le_high in Hlh. rewrite Hpm in Hlh.
    rewrite Forall_forall in Hfin. destruct (Hfin p Hp) as (_ & Hh & _).
    apply is_finite_Fin in Hh. destruct Hh as [h Hh]. rewrite Hh in Hlh.
    apply lt_Fin_false in Hlh. eapply Qcle_trans; [exact Hlh|].
    now apply (Hup p h). }
  exists m. unfold priceRange. rewrite Hm, HM. cbn [sub]. unfold or_else.
  destruct (truthy (Fin (M - m))) eqn:T.
  - exists (M - m). repeat split.
    assert (Hne0 : M - m <> 0).
    { intros H0. apply truthy_Fin in H0. congruence. }
    apply Qcle_minus_iff in HmM.
    destruct (Qcle_lt_or_eq _ _ HmM) as [Hlt|Heq]; [exact Hlt|].
    elim Hne0. symmetry. exact Heq.
  - exists (qz 1). repeat split.
Qed.



End Ordinates.

(** ** Geometry of the projection *)

Section Geometry.

Local Open Scope Qc_scope.

Lemma denom_ge2 (n : nat) : (2 <= n)%nat -> denom n = (Z.of_nat n - 1)%Z.
Proof. unfold denom. lia. Qed.

Lemma qz_neq0 (z : Z) : z <> 0%Z -> qz z <> 0.
Proof. intros Hz H. change 0 with (qz 0) in H. apply qz_inj in H. contradiction. Qed.

Lemma map_constant {A B : Type} (f : A -> B) (c : B) (l : list A) :
  Forall (fun a => f a = c) l -> map f l = repeat c (length l).
Proof.
  induction 1 as [|a l Ha _ IH]; [reflexivity|].
  cbn [map length repeat]. now rewrite Ha, IH.
Qed.

(** C10.  In a non-empty window whose lows, highs and closes all equal one
    finite value the price range is replaced by 1 and every bar has its
    point at [y = height - padding]: the ordinates of the chart are
    [height - padding], once per bar. *)
Theorem flat_window_baseline (data : list StockPoint) (v : Qc) :
  data <> [] ->
  Forall (fun p => low p = Fin v /\ high p = Fin v /\ close p = Fin v) data ->
  priceRange data = lit 1 /\
  map y (chartPoints data) = repeat (sub height padding) (length data) /\
  Forall (fun cp => y cp = sub height padding) (chartPoints data).
Proof.
  intros Hne Hflat. rewrite Forall_forall in Hflat.
  assert (Hfin : Forall finite_bar data).
  { rewrite Forall_forall. intros p Hp.
    destruct (Hflat p Hp) as (Hl & Hh & Hc). unfold finite_bar.
    now rewrite Hl, Hh, Hc. }
  destruct (price_bounds Hne Hfin)
    as (m & M & Hm & HM & (pl & Hpl & Hlow) & (ph & Hph & Hhigh) & _).
  assert (Hmv : m = v).
  { destruct (Hflat pl Hpl) as (Hl & _). rewrite Hl in Hlow. now injection Hlow. }
  assert (HMv : M = v).
  { destruct (Hflat ph Hph) as (_ & Hh & _). rewrite Hh in Hhigh. now injection Hhigh. }
  subst m M.
  assert (Hrange : priceRange data = lit 1).
  { unfold priceRange. rewrite Hm, HM. cbn [sub]. unfold or_else.
    replace (v - v) with 0 by ring. reflexivity. }
  assert (Hall : Forall (fun cp => y cp = sub height padding) (chartPoints data)).
  { rewrite Forall_forall. intros cp Hcp.
    destruct (chartPoints_In _ _ Hcp) as (p & i & Hp & ->).
    destruct (Hflat p Hp) as (_ & _ & Hc).
    assert (H1 : qz 1 <> 0) by (apply qz_neq0; lia).
    rewrite (@y_project data p i v (qz 1) v Hm Hrange H1 Hc).
    unfold height, padding. rewrite sub_lit. unfold lit. apply f_equal.
    change (280 - 16)%Z with 264%Z. unfold Qcdiv.
    replace (v - v) with 0 by ring. ring. }
  split; [exact Hrange|]. split; [|exact Hall].
  rewrite <- (chartPoints_length data). now apply map_constant.
Qed.

Lemma flat_window_baseline_witness :
  let bar := {| date := String.EmptyString; open := lit 5; high := lit 5;
                low := lit 5; close := lit 5; volume := lit 1 |} in
  map y (chartPoints [bar; bar; bar]) = repeat (sub height padding) 3.
Proof.
  intros bar.
  refine (proj1 (proj2 (@flat_window_baseline [bar; bar; bar] (qz 5) _ _))).
  - discriminate.
  - repeat constructor.
Defined.





(** Two closes one unit in the last place apart, 100 and the next binary64
    number, over lows of 0 and highs of 1000000, get the same ordinate from
    the code: the strict decrease of C4 does not survive rounding. *)
Lemma ordinate_tie_binary64 :
  PrimFloat.ltb Binary64.close1 Binary64.close2 = true /\
  Binary64.y Binary64.close1 Binary64.lowest Binary64.range =
  Binary64.y Binary64.close2 Binary64.lowest Binary64.range.
Proof. split; reflexivity. Qed.



End Geometry.

(** ** Hit-testing *)

Section HitTesting.

Local Open Scope Qc_scope.

Lemma num_eqb_eq (a b : num) : num_eqb a b = true -> a = b.
Proof.
  destruct a, b; try discriminate; try reflexivity.
  simpl. intros H. f_equal. now apply Qc_eq_bool_correct.
Qed.

Lemma floor_between (u : Q) (z : Z) :
  (inject_Z z <= u)%Q -> (u < inject_Z (z + 1))%Q -> Qfloor u = z.
Proof.
  intros Hlo Hhi.
  pose proof (Qfloor_le u) as H1. pose proof (Qlt_floor u) as H2.
  assert (Ha : (Qfloor u < z + 1)%Z).
  { rewrite Zlt_Qlt. eapply Qle_lt_trans; eauto. }
  assert (Hb : (z < Qfloor u + 1)%Z).
  { rewrite Zlt_Qlt. eapply Qle_lt_trans; eauto. }
  lia.
Qed.

Lemma this_half (a : Qc) : (this (a + Q2Qc (1 # 2)) == this a + (1 # 2))%Q.
Proof. rewrite this_plus. apply Qplus_comp; [reflexivity|apply this_Q2Qc]. Qed.

(** Rounding an integer gives it back. *)
Lemma Math_round_lit (z : Z) : Math_round (lit z) = lit z.
Proof.
  unfold lit at 1. cbn [Math_round]. f_equal. apply floor_between.
  - rewrite this_half, this_qz. lra.
  - rewrite this_half, this_qz, inject_Z_plus. change (inject_Z 1) with 1%Q. lra.
Qed.

(** Rounding keeps a value of [[0, m]] in [[0, m]]. *)
Lemma Math_round_range (a : Qc) (m : Z) :
  0 <= a -> a <= qz m ->
  exists j, Math_round (Fin a) = lit j /\ (0 <= j <= m)%Z.
Proof.
  intros H0 Hm. exists (Qfloor (a + Q2Qc (1 # 2))%Qc). split; [reflexivity|].
  unfold Qcle in H0, Hm. rewrite this_qz in Hm.
  change (this 0) with 0%Q in H0.
  pose proof (this_half a) as Hh. split.
  - change 0%Z with (Qfloor 0). apply Qfloor_resp_le. lra.
  - pose proof (Qfloor_le (a + Q2Qc (1 # 2))%Qc) as Hf.
    assert (Hlt : (Qfloor (a + Q2Qc (1 # 2))%Qc < m + 1)%Z).
    { rewrite Zlt_Qlt, inject_Z_plus. change (inject_Z 1) with 1%Q. lra. }
    lia.
Qed.

(** The clamp of anything but [NaN] is a finite ratio of [[0, 1]], and
    leaves a ratio of [[0, 1]] as it is. *)
Lemma clamp_Fin (r : Qc) :
  exists c, min2 (lit 1) (max2 (lit 0) (Fin r)) = Fin c /\ 0 <= c /\ c <= 1 /\
            (0 <= r -> r <= 1 -> c = r).
Proof.
  unfold lit. change (qz 0) with 0. change (qz 1) with 1. unfold max2.
  destruct (lt (Fin 0) (Fin r)) eqn:E0.
  - apply lt_Fin in E0. unfold min2. destruct (lt (Fin r) (Fin 1)) eqn:E1.
    + apply lt_Fin in E1. exists r. repeat split; auto using Qclt_le_weak.
    + apply lt_Fin_false in E1. exists 1. repeat split; try discriminate.
      intros _ H. now apply Qcle_antisym.
  - apply lt_Fin_false in E0. exists 0. split; [reflexivity|].
    repeat split; try discriminate. intros H _. now apply Qcle_antisym.
Qed.

Lemma clamp_range (a : num) :
  a <> NaN ->
  exists c, min2 (lit 1) (max2 (lit 0) a) = Fin c /\ 0 <= c /\ c <= 1.
Proof.
  intros Ha. destruct a as [r| | |].
  - destruct (clamp_Fin r) as (c & H & H0 & H1 & _). eauto.
  - exists 1. repeat split; discriminate.
  - exists 0. repeat split; discriminate.
  - contradiction.
Qed.

Lemma div_608_not_NaN (a : num) :
  a <> NaN ->
  div (sub a padding) (sub width (mul padding (lit 2))) <> NaN.
Proof.
  intros Ha. destruct a as [r| | |]; try contradiction; discriminate.
Qed.

Lemma hitIndex_range (n : nat) (event : MouseEvent) :
  (0 < n)%nat -> pointerX event <> NaN ->
  exists j, hitIndex n event = of_nat j /\ (j < n)%nat.
Proof.
  intros Hn Hp. unfold hitIndex.
  destruct (clamp_range (div_608_not_NaN Hp)) as (c & -> & Hc0 & Hc1).
  unfold of_nat. rewrite sub_lit. unfold lit at 1. cbn [mul].
  assert (Hm : (0 <= Z.of_nat n - 1)%Z) by lia.
  destruct (@Math_round_range (c * qz (Z.of_nat n - 1)) (Z.of_nat n - 1))
    as (j & Hj & Hjr).
  - rewrite <- (Qcmult_0_l (qz (Z.of_nat n - 1))).
    apply Qcmult_le_compat_r; [exact Hc0|].
    change 0 with (qz 0). now apply qz_le.
  - rewrite <- (Qcmult_1_l (qz (Z.of_nat n - 1))) at 2.
    apply Qcmult_le_compat_r; [exact Hc1|].
    change 0 with (qz 0). now apply qz_le.
  - exists (Z.to_nat j). split; [|lia].
    rewrite Hj. f_equal. lia.
Qed.

Lemma ratio_bounds (i d : Z) :
  (0 <= i <= d)%Z -> (0 < d)%Z -> 0 <= qz i / qz d /\ qz i / qz d <= 1.
Proof.
  intros Hi Hd. unfold Qcle. rewrite this_div, !this_qz.
  assert (Hd' : (0 < inject_Z d)%Q).
  { change 0%Q with (inject_Z 0). rewrite <- Zlt_Qlt. exact Hd. }
  assert (Hi0 : (0 <= inject_Z i)%Q).
  { change 0%Q with (inject_Z 0). rewrite <- Zle_Qle. lia. }
  assert (Hid : (inject_Z i <= inject_Z d)%Q).
  { rewrite <- Zle_Qle. lia. }
  split.
  - apply Qle_shift_div_l; [exact Hd'|]. change (this 0) with 0%Q. lra.
  - apply Qle_shift_div_r; [exact Hd'|]. change (this 1) with 1%Q. lra.
Qed.

Lemma hitIndex_at_point (n i : nat) (l : Qc) :
  (i < n)%nat ->
  hitIndex n
    {| clientX :=
         add (Fin l)
             (Fin (qz 16 + qz (Z.of_nat i) / qz (denom n) * qz 608));
       boundsLeft := Fin l; boundsWidth := width |} = of_nat i.
Proof.
  intros Hi. unfold hitIndex, pointerX. cbn [clientX boundsLeft boundsWidth].
  change (sub width (mul padding (lit 2))) with (Fin (qz 608)).
  assert (Hd : qz (denom n) <> 0) by apply qz_denom_neq.
  assert (H640 : qz 640 <> 0) by (apply qz_neq0; lia).
  assert (H608 : qz 608 <> 0) by (apply qz_neq0; lia).
  unfold width, padding, of_nat, lit.
  rewrite (div_Fin _ H640). cbn [add mul sub]. rewrite (div_Fin _ H608).
  assert (Hratio :
    ((l + (qz 16 + qz (Z.of_nat i) / qz (denom n) * qz 608) - l) *
     (qz 640 / qz 640) - qz 16) / qz 608 = qz (Z.of_nat i) / qz (denom n))
    by (field; auto).
  rewrite Hratio.
  assert (Hb : (0 <= Z.of_nat i <= denom n)%Z) by (unfold denom; lia).
  assert (Hdp : (0 < denom n)%Z) by (unfold denom; lia).
  destruct (ratio_bounds Hb Hdp) as [H0 H1].
  destruct (clamp_Fin (qz (Z.of_nat i) / qz (denom n))) as (c & Hcl & _ & _ & Hc).
  unfold lit in Hcl. rewrite Hcl, (Hc H0 H1), qz_minus. cbn [mul].
  assert (Hprod :
    qz (Z.of_nat i) / qz (denom n) * qz (Z.of_nat n - 1) = qz (Z.of_nat i)).
  { destruct (Nat.eq_dec n 1) as [->|Hn].
    - replace i with 0%nat by lia. change (qz (Z.of_nat 0)) with 0.
      unfold Qcdiv. ring.
    - rewrite (denom_ge2 (n := n)) by lia. field. apply qz_neq0. lia. }
  rewrite Hprod. exact (Math_round_lit (Z.of_nat i)).
Qed.

(** C3, as the claim states it, fails: on a bounding box of width 0 with the
    pointer on its left edge the rescaled abscissa is [0 * Infinity], the
    clamp lets [NaN] through, and the stored index is [NaN], not an index of
    the three bars. *)
Lemma zero_width_stores_NaN :
  let bar c := {| date := String.EmptyString; open := lit c; high := lit c;
                  low := lit c; close := lit c; volume := lit 1 |} in
  let data := [bar 1; bar 2; bar 3]%Z in
  let move := {| clientX := lit 5; boundsLeft := lit 5; boundsWidth := lit 0 |} in
  handleMouseMove (chartPoints data) move None = Some NaN /\
  forall j, handleMouseMove (chartPoints data) move None <> Some (of_nat j).
Proof.
  intros bar data move.
  assert (H : handleMouseMove (chartPoints data) move None = Some NaN)
    by reflexivity.
  split; [exact H|]. intros j. rewrite H. discriminate.
Qed.

(** C3, amended.  A pointer at the abscissa of bar [i], on a chart shown at
    its logical width, sets the hover index to [i].  Whenever the rescaled
    pointer abscissa is a number, the index is one of [0 .. n - 1].  When it
    is [NaN], as on a box of width 0 with the pointer on its left edge, the
    stored index is [NaN]. *)
Theorem hit_testing_round_trip :
  (forall (data : list StockPoint) (i : nat) (cp : ChartPoint) (left : num)
          (h : HoverState),
     nth_error (chartPoints data) i = Some cp ->
     is_finite left = true ->
     handleMouseMove (chartPoints data)
       {| clientX := add left (x cp); boundsLeft := left; boundsWidth := width |}
       h = Some (of_nat i)) /\
  (forall (data : list StockPoint) (event : MouseEvent) (h : HoverState),
     data <> [] -> pointerX event <> NaN ->
     exists j,
       handleMouseMove (chartPoints data) event h = Some (of_nat j) /\
       (j < length data)%nat) /\
  (forall (data : list StockPoint) (event : MouseEvent) (h : HoverState),
     data <> [] -> pointerX event = NaN ->
     handleMouseMove (chartPoints data) event h = Some NaN) /\
  (forall l : Qc,
     pointerX {| clientX := Fin l; boundsLeft := Fin l; boundsWidth := lit 0 |}
     = NaN).
Proof.
  split; [|split; [|split]].
  - intros data i cp left h Hcp Hleft.
    apply chartPoints_x in Hcp. destruct Hcp as [Hx Hi].
    apply is_finite_Fin in Hleft. destruct Hleft as [l ->].
    unfold handleMouseMove. rewrite chartPoints_length.
    destruct (length data) as [|n'] eqn:En; [lia|]. cbn [Nat.eqb].
    rewrite Hx. f_equal. rewrite <- En in *. now apply hitIndex_at_point.
  - intros data event h Hne Hp. unfold handleMouseMove.
    rewrite chartPoints_length.
    destruct data as [|p data']; [contradiction|]. cbn [length Nat.eqb].
    destruct (@hitIndex_range (S (length data')) event ltac:(lia) Hp) as (j & Hj & Hlt).
    exists j. now rewrite Hj.
  - intros data event h Hne Hp. unfold handleMouseMove.
    rewrite chartPoints_length.
    destruct data as [|p data']; [contradiction|]. cbn [length Nat.eqb].
    unfold hitIndex. rewrite Hp. reflexivity.
  - intros l. unfold pointerX. cbn [clientX boundsLeft boundsWidth sub].
    change (div width (lit 0)) with PInf. cbn [mul].
    replace (l - l)%Qc with (Q2Qc 0) by ring. reflexivity.
Qed.

Lemma hit_testing_round_trip_witness :
  let bar c := {| date := String.EmptyString; open := lit c; high := lit c;
                  low := lit c; close := lit c; volume := lit 1 |} in
  let data := [bar 1; bar 2; bar 3]%Z in
  handleMouseMove (chartPoints data)
    {| clientX := add (lit 40) (lit 320); boundsLeft := lit 40;
       boundsWidth := width |} None = Some (of_nat 1) /\
  (exists j,
    handleMouseMove (chartPoints data)
      {| clientX := lit 5000; boundsLeft := lit 0; boundsWidth := lit 320 |}
      None = Some (of_nat j) /\ (j < 3)%nat) /\
  handleMouseMove (chartPoints data)
    {| clientX := lit 5; boundsLeft := lit 5; boundsWidth := lit 0 |}
    None = Some NaN.
Proof.
  intros bar data. destruct hit_testing_round_trip as (Hrt & Hrange & Hnan & _).
  split; [|split].
  - assert (Hx : x (project data (bar 2%Z) 1) = lit 320) by fin_eq.
    rewrite <- Hx.
    apply (Hrt data 1%nat (project data (bar 2%Z) 1) (lit 40) None);
      reflexivity.
  - apply (Hrange data); [discriminate|].
    vm_compute. discriminate.
  - apply (Hnan data); [discriminate|reflexivity].
Defined.

End HitTesting.

(** ** Hover rendering *)

Section Hover.

Lemma get_Some {A : Type} (l : list A) (k : num) (v : A) :
  get l k = Some v ->
  exists i, k = of_nat i /\ nth_error l i = Some v /\ (i < length l)%nat.
Proof.
  destruct k as [q| | |]; try discriminate. cbn [get].
  destruct ((Z.pos (Qden q) =? 1)%Z && (0 <=? Qnum q)%Z) eqn:E; [|discriminate].
  apply andb_prop in E. destruct E as [Hden Hnum].
  apply Z.eqb_eq in Hden. apply Z.leb_le in Hnum. intros H.
  exists (Z.to_nat (Qnum q)). split; [|split].
  - unfold of_nat, lit. f_equal. apply Qc_is_canon. rewrite this_qz.
    rewrite Z2Nat.id by exact Hnum.
    destruct q as [[n d] Hq]. cbn [this Qnum Qden] in *.
    injection Hden as ->. reflexivity.
  - exact H.
  - apply nth_error_Some. congruence.
Qed.

Lemma lit_inj (a b : Z) : lit a = lit b -> a = b.
Proof.
  intros H. apply qz_inj.
  exact (f_equal (fun v => match v with Fin q => q | _ => qz a end) H).
Qed.

Lemma tooltipConfig_None (hovered : option ChartPoint) :
  tooltipConfig hovered = None <-> hovered = None.
Proof. destruct hovered; split; intros H; try discriminate; reflexivity. Qed.

(** C9.  A stored hover index that is not the index of a bar of the window
    (too large after the window shrank, negative, fractional or not finite)
    selects no point: no tooltip is computed and the chart is drawn without
    the hover line, dot and tooltip.  An index of the window does draw them;
    the tooltip exists exactly when the point does. *)
Theorem stale_hover_draws_nothing :
  (forall (data : list StockPoint) (k : num),
     data <> [] ->
     (forall i, (i < length data)%nat -> k <> of_nat i) ->
     hoveredPoint (chartPoints data) (Some k) = None /\
     StockChart data (Some k) =
       Svg (map (fun p => (x p, y p)) (chartPoints data)) None) /\
  (forall (data : list StockPoint) (i : nat),
     (i < length data)%nat ->
     exists g, StockChart data (Some (of_nat i)) =
               Svg (map (fun p => (x p, y p)) (chartPoints data)) (Some g)) /\
  (forall hovered, tooltipConfig hovered = None <-> hovered = None).
Proof.
  split; [|split].
  - intros data k Hne Hk.
    assert (Hnone : hoveredPoint (chartPoints data) (Some k) = None).
    { cbn [hoveredPoint].
      destruct (get (chartPoints data) k) as [cp|] eqn:E; [|reflexivity].
      apply get_Some in E. destruct E as (i & -> & _ & Hi).
      rewrite chartPoints_length in Hi. now elim (Hk i Hi). }
    split; [exact Hnone|]. unfold StockChart.
    destruct data as [|p data']; [contradiction|]. cbn [length Nat.eqb].
    now rewrite Hnone.
  - intros data i Hi. unfold StockChart.
    destruct (length data) as [|n] eqn:En; [lia|]. cbn [Nat.eqb].
    cbn [hoveredPoint]. rewrite get_of_nat, chartPoints_nth.
    destruct (nth_error data i) as [q|] eqn:E.
    + cbn [option_map tooltipConfig]. eexists. reflexivity.
    + apply nth_error_None in E. lia.
  - apply tooltipConfig_None.
Qed.

Lemma stale_hover_draws_nothing_witness :
  let bar c := {| date := String.EmptyString; open := lit c; high := lit c;
                  low := lit c; close := lit c; volume := lit 1 |} in
  let data := [bar 1; bar 2]%Z in
  StockChart data (Some (lit 9)) =
    Svg (map (fun p => (x p, y p)) (chartPoints data)) None /\
  exists g, StockChart data (Some (of_nat 1)) =
            Svg (map (fun p => (x p, y p)) (chartPoints data)) (Some g).
Proof.
  intros bar data. destruct stale_hover_draws_nothing as (Hstale & Hin & _).
  split.
  - apply (Hstale data (lit 9)); [discriminate|].
    intros i Hi H. apply lit_inj in H. simpl in Hi. lia.
  - apply (Hin data 1%nat). simpl. lia.
Defined.

End Hover.

(** ** Hover state across renders *)

Section HoverState.

(** C2, as the claim states it, fails: with ten bars shown and the pointer
    on the last one, a click on [2D] changes the window to two bars and the
    stored hover index is still 9. *)
Lemma hover_survives_range_change :
  let bar c := {| date := String.EmptyString; open := lit c; high := lit c;
                  low := lit c; close := lit c; volume := lit 1 |} in
  let sd := {| ticker := String.EmptyString;
               data := map bar [1; 2; 3; 4; 5; 6; 7; 8; 9; 10]%Z |} in
  let move := {| clientX := lit 624; boundsLeft := lit 0;
                 boundsWidth := lit 640 |} in
  let st := run [DataLoaded sd; PointerMove move] initialState in
  let st' := step st (RangeClick R2D) in
  window st' <> window st /\
  length (window st') = 2%nat /\
  st_hoverIndex st' = Some (lit 9) /\
  st_hoverIndex st' <> None.
Proof.
  intros bar sd move st st'.
  assert (Hh : st_hoverIndex st' = Some (lit 9)).
  { change (st_hoverIndex st') with (Some (hitIndex 10 move)).
    apply f_equal. apply num_eqb_eq. vm_compute. reflexivity. }
  split; [|split; [reflexivity|split; [exact Hh|]]].
  - intros H. apply (f_equal (@length StockPoint)) in H. discriminate H.
  - rewrite Hh. discriminate.
Qed.

Lemma run_no_move (es : list Event) (st : AppState) :
  (forall event, ~ In (PointerMove event) es) ->
  st_hoverIndex st = None -> st_hoverIndex (run es st) = None.
Proof.
  revert st. induction es as [|e es IH]; intros st Hes Hst; [exact Hst|].
  cbn [run fold_left]. apply IH.
  - intros event Hin. apply (Hes event). now right.
  - destruct e; cbn [step st_hoverIndex]; try assumption; try reflexivity.
    elim (Hes event). now left.
Qed.

(** C2, amended.  The hover index is unset in the initial state and is
    cleared by a pointer leave; a click on a range button and the arrival of
    the series leave it as it is; from the initial state it stays unset as
    long as no pointer move occurs. *)
Theorem hover_state_lifecycle :
  st_hoverIndex initialState = None /\
  (forall st, st_hoverIndex (step st PointerLeave) = None) /\
  (forall st range,
     st_hoverIndex (step st (RangeClick range)) = st_hoverIndex st) /\
  (forall st parsed,
     st_hoverIndex (step st (DataLoaded parsed)) = st_hoverIndex st) /\
  (forall es,
     (forall event, ~ In (PointerMove event) es) ->
     st_hoverIndex (run es initialState) = None).
Proof.
  repeat split. intros es Hes. now apply run_no_move.
Qed.

Lemma hover_state_lifecycle_witness :
  st_hoverIndex
    (run [RangeClick R1D; PointerLeave; RangeClick RMAX] initialState) = None.
Proof.
  apply (proj2 (proj2 (proj2 (proj2 hover_state_lifecycle)))).
  intros event [H|[H|[H|[]]]]; discriminate H.
Defined.

End HoverState.

(** * Further properties of the code *)

(** ** Windows *)

Section Windows.

Lemma slice_neg_skipn {A : Type} (l : list A) (n : Z) :
  (0 < n)%Z -> slice l (- n) = skipn (length l - Z.to_nat n) l.
Proof.
  intros Hn. unfold slice. rewrite (proj2 (Z.ltb_lt (- n) 0)) by lia.
  f_equal. lia.
Qed.

Lemma skipn_suffix {A : Type} (l : list A) (a b : nat) :
  (b <= a)%nat -> exists pre, skipn b l = pre ++ skipn a l.
Proof.
  intros Hab. exists (firstn (a - b) (skipn b l)).
  replace (skipn a l) with (skipn (a - b) (skipn b l)).
  - symmetry. apply firstn_skipn.
  - rewrite skipn_skipn. f_equal. lia.
Qed.

Lemma window_nil_series_nil (sd : StockData) (k : RangeKey) :
  filteredData (Some sd) k = [] -> data sd = [].
Proof.
  intros H. apply (f_equal (@length StockPoint)) in H. cbn [length] in H.
  destruct (data sd) as [|p l] eqn:E; [reflexivity|exfalso].
  destruct k; unfold filteredData, RANGE_MAP in H; rewrite E in H;
    try discriminate H;
    rewrite slice_neg_skipn, length_skipn in H by lia;
    cbn [length] in H; lia.
Qed.

(** X1.  The window is empty only when the series is: every range keeps at
    least the last bar. *)
Theorem window_empty_iff_series_empty (sd : StockData) (k : RangeKey) :
  filteredData (Some sd) k = [] <-> data sd = [].
Proof.
  split.
  - apply window_nil_series_nil.
  - intros H. destruct k; unfold filteredData, RANGE_MAP; rewrite H; reflexivity.
Qed.

(** X2.  The windows are nested: the window of a shorter range is the end of the
    window of a longer one. *)
Theorem windows_nested (sd : StockData) (k1 k2 : RangeKey) :
  range_le k1 k2 = true ->
  exists pre, filteredData (Some sd) k2 = pre ++ filteredData (Some sd) k1.
Proof.
  intros Hle. unfold range_le in Hle. unfold filteredData.
  destruct (RANGE_MAP k2) as [b|] eqn:E2.
  - destruct (RANGE_MAP k1) as [a|] eqn:E1; [|discriminate].
    apply Z.leb_le in Hle.
    assert (Ha : (0 < a)%Z) by (destruct k1; inversion E1; lia).
    rewrite !slice_neg_skipn by lia. apply skipn_suffix. lia.
  - destruct (RANGE_MAP k1) as [a|] eqn:E1; [|exists []; reflexivity].
    assert (Ha : (0 < a)%Z) by (destruct k1; inversion E1; lia).
    rewrite slice_neg_skipn by lia.
    exists (firstn (length (data sd) - Z.to_nat a) (data sd)).
    symmetry. apply firstn_skipn.
Qed.

Lemma windows_nested_witness :
  let bar c := {| date := String.EmptyString; open := lit c; high := lit c;
                  low := lit c; close := lit c; volume := lit 1 |} in
  let sd := {| ticker := String.EmptyString;
               data := [bar 1; bar 2; bar 3]%Z |} in
  exists pre, filteredData (Some sd) R2D = pre ++ filteredData (Some sd) R1D.
Proof.
  intros bar sd. apply (windows_nested sd R1D R2D). reflexivity.
Defined.

End Windows.

(** ** The header *)

Section Header.

Local Open Scope Qc_scope.

(** X3.  The price, the change and its percentage do not depend on the selected
    range: the latest bar is always the last bar of the series, so the
    fallback on the series is never what decides it. *)
Theorem header_independent_of_range (sd : StockData) (k k' : RangeKey) :
  latestPoint (Some sd) k = at_ (filteredData (Some sd) k) (-1) /\
  latestPoint (Some sd) k = latestPoint (Some sd) k' /\
  currentPrice (Some sd) k = currentPrice (Some sd) k' /\
  priceChange (Some sd) k = priceChange (Some sd) k' /\
  priceChangePercent (Some sd) k = priceChangePercent (Some sd) k'.
Proof.
  assert (Hl : latestPoint (Some sd) k = latestPoint (Some sd) k')
    by now rewrite !latestPoint_last.
  assert (Hc : currentPrice (Some sd) k = currentPrice (Some sd) k')
    by (unfold currentPrice; now rewrite Hl).
  assert (Hp : previousClose (Some sd) k = previousClose (Some sd) k')
    by (unfold previousClose; now rewrite Hc).
  assert (Hd : priceChange (Some sd) k = priceChange (Some sd) k')
    by (unfold priceChange; now rewrite Hc, Hp).
  repeat split; try assumption.
  - unfold latestPoint.
    destruct (at_ (filteredData (Some sd) k) (-1)) as [p|] eqn:E; [reflexivity|].
    rewrite at_m1_rev in E.
    destruct (rev (filteredData (Some sd) k)) as [|p r] eqn:Er; [|discriminate].
    assert (Hw : filteredData (Some sd) k = []).
    { rewrite <- (rev_involutive (filteredData _ _)), Er. reflexivity. }
    apply window_nil_series_nil in Hw. cbn [series_at].
    rewrite Hw. reflexivity.
  - unfold priceChangePercent. now rewrite Hp, Hd.
Qed.

Lemma ge_Fin (a b : Qc) : ge (Fin a) (Fin b) = true <-> b <= a.
Proof.
  cbn [ge]. rewrite negb_true_iff. apply lt_Fin_false.
Qed.

(** X4.  Over finite closes the change is shown as positive exactly when the last
    close is not below the one before; with fewer than two bars it is
    positive. *)
Theorem price_change_class (sd : StockData) (k : RangeKey) :
  Forall (fun p => is_finite (close p) = true) (data sd) ->
  match rev (data sd) with
  | b :: a :: _ =>
      signClass (priceChange (Some sd) k) = Positive <->
      lt (close b) (close a) = false
  | _ => signClass (priceChange (Some sd) k) = Positive
  end.
Proof.
  intros Hfin.
  assert (Hin : forall p, In p (rev (data sd)) -> exists q, close p = Fin q).
  { intros p Hp. apply is_finite_Fin. rewrite Forall_forall in Hfin.
    apply Hfin. now apply in_rev. }
  unfold signClass, priceChange, previousClose, currentPrice, previousPoint.
  rewrite latestPoint_last. unfold series_at. rewrite at_m2_rev.
  destruct (rev (data sd)) as [|b [|a r]];
    cbn [hd_error nth_error option_map nullish].
  - reflexivity.
  - destruct (Hin b (or_introl eq_refl)) as [qb ->]. cbn [sub]. unfold lit.
    rewrite (proj2 (ge_Fin _ _)); [reflexivity|].
    replace (qb - qb) with (qz 0) by (change (qz 0) with 0; ring).
    apply Qcle_refl.
  - destruct (Hin b (or_introl eq_refl)) as [qb ->].
    destruct (Hin a (or_intror (or_introl eq_refl))) as [qa ->].
    cbn [sub]. unfold lit. rewrite lt_Fin_false.
    destruct (ge (Fin (qb - qa)) (Fin (qz 0))) eqn:E.
    + apply ge_Fin in E. split; [intros _|reflexivity].
      apply Qcle_minus_iff. exact E.
    + split; [discriminate|]. intros H. apply Qcle_minus_iff in H.
      apply ge_Fin in H. unfold Qcminus in E. change (qz 0) with 0 in E.
      congruence.
Qed.

Lemma price_change_class_witness :
  let bar c := {| date := String.EmptyString; open := lit c; high := lit c;
                  low := lit c; close := lit c; volume := lit 1 |} in
  let sd := {| ticker := String.EmptyString;
               data := [bar 10; bar 12; bar 9]%Z |} in
  signClass (priceChange (Some sd) R5D) = Positive <->
  lt (lit 9) (lit 12) = false.
Proof.
  intros bar sd.
  apply (price_change_class sd R5D). repeat constructor.
Defined.

End Header.

(** ** The position panel *)

Section PositionPanel.

Local Open Scope Qc_scope.

(** X5.  For a finite price the total cost is the constant 13020, so the guard of
    the percentage never fires; the gain is shown as positive exactly from
    the cost basis 108.5 upwards. *)
Theorem position_valuation (q : Qc) :
  let p := position (Fin q) in
  shares p = lit 120 /\
  costBasis p = frac 217 2 /\
  marketValue p = Fin (qz 120 * q) /\
  unrealizedGain p = Fin (qz 120 * q - qz 13020) /\
  gainPercent p = Fin ((qz 120 * q - qz 13020) / qz 13020 * qz 100) /\
  (signClass (unrealizedGain p) = Positive <-> Q2Qc (217 # 2) <= q).
Proof.
  cbv zeta.
  assert (Hcost : mul (lit 120) (frac 217 2) = Fin (qz 13020)) by fin_eq.
  assert (Hgain : unrealizedGain (position (Fin q)) = Fin (qz 120 * q - qz 13020)).
  { unfold position. cbn [unrealizedGain]. rewrite Hcost. reflexivity. }
  repeat split; try reflexivity; try exact Hgain.
  - rewrite Hgain. unfold signClass, lit. intros H.
    destruct (ge (Fin (qz 120 * q - qz 13020)) (Fin (qz 0))) eqn:E;
      [|discriminate].
    apply ge_Fin in E. apply Qcle_minus_iff.
    apply (Qcmult_lt_0_le_reg_r _ _ (qz 120)); [reflexivity|].
    rewrite Qcmult_0_l.
    replace ((q + - Q2Qc (217 # 2)) * qz 120) with (qz 120 * q - qz 13020);
      [exact E|].
    replace (qz 13020) with (qz 120 * Q2Qc (217 # 2))
      by (apply Qc_is_canon; reflexivity).
    ring.
  - rewrite Hgain. unfold signClass, lit. intros H.
    rewrite (proj2 (ge_Fin _ _)); [reflexivity|].
    apply Qcle_minus_iff in H.
    apply (Qcmult_le_compat_r _ _ (qz 120)) in H; [|discriminate].
    rewrite Qcmult_0_l in H.
    replace ((q + - Q2Qc (217 # 2)) * qz 120) with (qz 120 * q - qz 13020) in H;
      [exact H|].
    replace (qz 13020) with (qz 120 * Q2Qc (217 # 2))
      by (apply Qc_is_canon; reflexivity).
    ring.
Qed.

(** X6.  Before the series is loaded, and for an empty series, the price is 0 and
    the panel shows the whole cost as a loss: a gain of -13020, that is
    -100%, in the negative class. *)
Theorem position_without_data (k : RangeKey) (t : String.string) :
  let empty := Some {| ticker := t; data := [] |} in
  currentPrice None k = lit 0 /\
  currentPrice empty k = lit 0 /\
  marketValue (position (lit 0)) = lit 0 /\
  unrealizedGain (position (lit 0)) = lit (-13020) /\
  gainPercent (position (lit 0)) = lit (-100) /\
  signClass (unrealizedGain (position (lit 0))) = Negative.
Proof.
  cbv zeta. repeat split; try (destruct k; reflexivity);
    try (apply num_eqb_eq; vm_compute; reflexivity).
Qed.

End PositionPanel.

(** ** Sentiment of a window *)

Section WindowSentiment.

Local Open Scope Qc_scope.

Lemma Qcdiv_pos (a b : Qc) : 0 < a -> 0 < b -> 0 < a / b.
Proof.
  intros Ha Hb. unfold Qclt in *. rewrite this_div.
  apply Qlt_shift_div_l; [exact Hb|]. change (this 0) with 0%Q.
  rewrite Qmult_0_l. exact Ha.
Qed.

Lemma Indicator_Fin (s : Qc) :
  (Indicator (Fin s) = Bullish <-> Q2Qc (1 # 5) < s) /\
  (Indicator (Fin s) = Bearish <-> s < - Q2Qc (1 # 5)).
Proof.
  unfold Indicator, gt. rewrite frac_2_10, frac_m2_10.
  destruct (lt (Fin (Q2Qc (1 # 5))) (Fin s)) eqn:E1.
  - apply lt_Fin in E1. split; split; try discriminate; auto.
    intros H. exfalso. apply (Qclt_not_le _ _ E1).
    apply Qclt_le_weak. eapply Qclt_trans; [exact H|reflexivity].
  - apply lt_Fin_false in E1.
    destruct (lt (Fin s) (Fin (- Q2Qc (1 # 5)))) eqn:E2.
    + apply lt_Fin in E2. split; split; try discriminate; auto.
      intros H. elim (Qcle_not_lt _ _ E1 H).
    + apply lt_Fin_false in E2. split; split; try discriminate; intros H.
      * elim (Qcle_not_lt _ _ E1 H).
      * elim (Qcle_not_lt _ _ E2 H).
Qed.

(** X7.  With a positive first close the label of a window of two bars or
    more follows the direction of the window: it is not Bearish when the last
    close is above the first, not Bullish when it is below, and Neutral when
    the two are equal. *)
Theorem sentiment_follows_direction (p0 pn : StockPoint)
  (mid : list StockPoint) (f l : Qc) :
  close p0 = Fin f -> close pn = Fin l -> 0 < f ->
  let w := p0 :: mid ++ [pn] in
  (f < l -> option_map Indicator (slope w) <> Some Bearish) /\
  (l < f -> option_map Indicator (slope w) <> Some Bullish) /\
  (l = f -> option_map Indicator (slope w) = Some Neutral) /\
  (exists label, option_map Indicator (slope w) = Some label).
Proof.
  intros Hf Hl Hpos w. subst w. rewrite slope_boundary, Hf, Hl.
  assert (Hf0 : f <> 0).
  { intros H. rewrite H in Hpos. exact (Qclt_not_eq _ _ Hpos eq_refl). }
  cbn [sub]. rewrite (div_Fin _ Hf0). unfold lit. cbn [mul option_map].
  assert (Hz : 0 < qz 100 / f) by (apply Qcdiv_pos; [reflexivity|exact Hpos]).
  assert (Hs : (l - f) / f * qz 100 = (l + - f) * (qz 100 / f))
    by (field; exact Hf0).
  destruct (Indicator_Fin ((l - f) / f * qz 100)) as [Hup Hdown].
  split; [|split; [|split]].
  - intros Hlt Hlabel. injection Hlabel as Hlabel. apply Hdown in Hlabel.
    assert (H0 : 0 < (l - f) / f * qz 100).
    { rewrite Hs, <- (Qcmult_0_l (qz 100 / f)).
      apply (Qcmult_lt_compat_r (Q2Qc 0) (l + - f) (qz 100 / f) Hz).
      exact (proj1 (Qclt_minus_iff f l) Hlt). }
    assert (Hneg : (l - f) / f * qz 100 < 0)
      by (eapply Qclt_trans; [exact Hlabel|reflexivity]).
    exact (Qclt_not_eq _ _ (Qclt_trans _ _ _ H0 Hneg) eq_refl).
  - intros Hlt Hlabel. injection Hlabel as Hlabel. apply Hup in Hlabel.
    assert (H0 : (l - f) / f * qz 100 < 0).
    { rewrite Hs, <- (Qcmult_0_l (qz 100 / f)).
      apply (Qcmult_lt_compat_r (l + - f) (Q2Qc 0) (qz 100 / f) Hz).
      unfold Qclt in *. rewrite this_plus.
      assert (Ho : (this (- f) == - this f)%Q)
        by (unfold Qcopp, Q2Qc; cbn [this]; apply Qred_correct).
      change (this 0) with 0%Q. lra. }
    assert (Hpos' : 0 < (l - f) / f * qz 100)
      by (eapply Qclt_trans; [|exact Hlabel]; reflexivity).
    exact (Qclt_not_eq _ _ (Qclt_trans _ _ _ Hpos' H0) eq_refl).
  - intros ->. replace ((f - f) / f * qz 100) with 0
      by (unfold Qcdiv; ring).
    reflexivity.
  - eexists. reflexivity.
Qed.

Lemma sentiment_follows_direction_witness :
  let bar c := {| date := String.EmptyString; open := lit c; high := lit c;
                  low := lit c; close := lit c; volume := lit 1 |} in
  option_map Indicator (slope [bar 100; bar 90; bar 101]%Z) <> Some Bearish.
Proof.
  intros bar.
  apply (proj1 (@sentiment_follows_direction (bar 100%Z) (bar 101%Z)
                  [bar 90%Z] (qz 100) (qz 101) eq_refl eq_refl eq_refl)).
  reflexivity.
Defined.

(** X8.  The division of the slope is not guarded: when the first close of a
    window of two bars or more is zero the slope is not a finite number, and
    the label is Neutral exactly when the last close is zero too (the slope
    is then [NaN]); otherwise it is Bullish or Bearish.  A window of fewer
    than two bars is Neutral. *)
Theorem sentiment_zero_first_close (p0 pn : StockPoint) (mid : list StockPoint)
  (l : Qc) :
  close p0 = lit 0 -> close pn = Fin l ->
  (exists s, slope (p0 :: mid ++ [pn]) = Some s /\ is_finite s = false) /\
  (option_map Indicator (slope (p0 :: mid ++ [pn])) = Some Neutral <-> l = 0) /\
  option_map Indicator (slope [p0]) = Some Neutral /\
  option_map Indicator (slope []) = Some Neutral.
Proof.
  intros H0 Hl.
  assert (Hs : slope (p0 :: mid ++ [pn]) = Some (signed_inf (l ?= 0))).
  { rewrite slope_boundary, H0, Hl. unfold lit at 1 2. cbn [sub].
    change (qz 0) with 0. replace (l - 0) with l by ring.
    rewrite div_Fin_zero. destruct (l ?= 0); reflexivity. }
  rewrite Hs. split; [|split; [|split; reflexivity]].
  - eexists. split; [reflexivity|]. destruct (l ?= 0); reflexivity.
  - rewrite <- compare_eq. cbn [option_map].
    destruct (l ?= 0); split; intros H; try discriminate; reflexivity.
Qed.

Lemma sentiment_zero_first_close_witness :
  let bar c := {| date := String.EmptyString; open := lit c; high := lit c;
                  low := lit c; close := lit c; volume := lit 1 |} in
  exists s, slope [bar 0; bar 3; bar 2]%Z = Some s /\ is_finite s = false.
Proof.
  intros bar.
  exact (proj1 (@sentiment_zero_first_close (bar 0%Z) (bar 2%Z) [bar 3%Z]
                  (qz 2) eq_refl eq_refl)).
Defined.

End WindowSentiment.

(** ** Bounds of the average volume *)

Section AverageBounds.

Local Open Scope Qc_scope.

Lemma averageVolume_Fin (w : list StockPoint) (vs : list Qc) :
  w <> [] -> map volume w = map Fin vs ->
  averageVolume w = Fin (Qc_sum vs / qz (Z.of_nat (length w))).
Proof.
  intros Hne Hvs. unfold averageVolume.
  destruct w as [|p w]; [contradiction|].
  cbn [length Nat.eqb]. unfold lit at 1.
  rewrite (fold_add_volume _ vs _ Hvs). unfold of_nat, lit.
  rewrite div_Fin.
  - apply f_equal. change (qz 0) with 0. apply f_equal2; [ring|reflexivity].
  - apply qz_neq0. cbn [length]. lia.
Qed.

Lemma Qc_sum_bounds (vs : list Qc) (lo hi : Qc) :
  (forall v, In v vs -> lo <= v /\ v <= hi) ->
  lo * qz (Z.of_nat (length vs)) <= Qc_sum vs /\
  Qc_sum vs <= hi * qz (Z.of_nat (length vs)).
Proof.
  induction vs as [|v vs IH]; intros H.
  - cbn [length Qc_sum fold_right]. change (qz (Z.of_nat 0)) with 0.
    rewrite !Qcmult_0_r. split; apply Qcle_refl.
  - destruct IH as [IHlo IHhi]; [intros u Hu; apply H; now right|].
    destruct (H v (or_introl eq_refl)) as [Hlo Hhi].
    cbn [length]. replace (Z.of_nat (S (length vs))) with (1 + Z.of_nat (length vs))%Z by lia.
    rewrite <- qz_plus. change (qz 1) with 1.
    rewrite !Qcmult_plus_distr_r, !Qcmult_1_r.
    change (Qc_sum (v :: vs)) with (v + Qc_sum vs).
    split; now apply Qcplus_le_compat.
Qed.

Lemma averageVolume_bounds_exact (w : list StockPoint) (vs : list Qc)
  (lo hi : Qc) :
  w <> [] -> map volume w = map Fin vs ->
  (forall v, In v vs -> lo <= v /\ v <= hi) ->
  exists a, averageVolume w = Fin a /\ lo <= a /\ a <= hi.
Proof.
  intros Hne Hvs Hb. rewrite (@averageVolume_Fin w vs Hne Hvs).
  eexists. split; [reflexivity|].
  assert (Hlen : length vs = length w).
  { rewrite <- (length_map Fin vs), <- Hvs. apply length_map. }
  destruct (@Qc_sum_bounds vs lo hi Hb) as [Hlo Hhi]. rewrite Hlen in Hlo, Hhi.
  assert (Hn : (0 < inject_Z (Z.of_nat (length w)))%Q).
  { change 0%Q with (inject_Z 0). rewrite <- Zlt_Qlt.
    destruct w; [contradiction|cbn [length]; lia]. }
  unfold Qcle in *. rewrite this_mult, this_qz in Hlo, Hhi.
  rewrite this_div, this_qz. split.
  - apply Qle_shift_div_l; assumption.
  - apply Qle_shift_div_r; assumption.
Qed.

(** X9.  Volumes are counts: for a non-empty window whose volumes are
    non-negative integers with a sum of at most [2^53], so that the code adds
    them without rounding, the average volume lies between any two integer
    bounds of these volumes. *)
Theorem averageVolume_between (w : list StockPoint) (zs : list Z) (lo hi : Z) :
  w <> [] -> map volume w = map lit zs ->
  (forall z, In z zs -> (0 <= z)%Z /\ (lo <= z <= hi)%Z) ->
  (fold_right Z.add 0%Z zs <= 2 ^ 53)%Z ->
  exists a, averageVolume w = Fin a /\ qz lo <= a /\ a <= qz hi.
Proof.
  intros Hne Hvs Hb _.
  apply (@averageVolume_bounds_exact w (map qz zs) (qz lo) (qz hi) Hne).
  - rewrite Hvs, map_map. reflexivity.
  - intros v Hv. apply in_map_iff in Hv. destruct Hv as (z & <- & Hz).
    destruct (Hb z Hz) as (_ & Hlo & Hhi). split; now apply qz_le.
Qed.

Lemma averageVolume_between_witness :
  let bar v := {| date := String.EmptyString; open := lit 1; high := lit 1;
                  low := lit 1; close := lit 1; volume := lit v |} in
  exists a, averageVolume [bar 100; bar 250; bar 300]%Z = Fin a /\
            qz 100 <= a /\ a <= qz 300.
Proof.
  intros bar.
  apply (@averageVolume_between [bar 100; bar 250; bar 300]%Z
           [100; 250; 300]%Z 100%Z 300%Z).
  - discriminate.
  - reflexivity.
  - intros z [<-|[<-|[<-|[]]]]; lia.
  - vm_compute. discriminate.
Defined.

End AverageBounds.

(** ** The plot area *)

Section PlotArea.

Local Open Scope Qc_scope.

Lemma this_inv (a : Qc) : (this (/ a) == / this a)%Q.
Proof. unfold Qcinv, Q2Qc; cbn [this]. apply Qred_correct. Qed.

Lemma map_point_mapi_from (data l : list StockPoint) (i : nat) :
  map point (mapi_from (project data) i l) = l.
Proof.
  revert i. induction l as [|p l IH]; intros i; cbn [mapi_from map].
  - reflexivity.
  - now rewrite IH.
Qed.

(** X10.  The chart has one point per bar of the window, in the order of the bars,
    each carrying its bar. *)
Theorem chartPoints_carry_bars (data : list StockPoint) :
  map point (chartPoints data) = data /\
  length (chartPoints data) = length data.
Proof.
  split; [exact (map_point_mapi_from data data 0)|apply chartPoints_length].
Qed.

Lemma abscissas_pair (data : list StockPoint) (i j : nat)
  (ci cj : ChartPoint) :
  nth_error (chartPoints data) i = Some ci ->
  nth_error (chartPoints data) j = Some cj ->
  (i < j)%nat ->
  lt (x ci) (x cj) = true /\
  lt (x ci) padding = false /\ lt (sub width padding) (x ci) = false.
Proof.
  intros Hi Hj Hlt.
  apply chartPoints_x in Hi. destruct Hi as [Hxi Hin].
  apply chartPoints_x in Hj. destruct Hj as [Hxj Hjn].
  rewrite Hxi, Hxj. unfold padding, width. rewrite sub_lit. unfold lit.
  change (640 - 16)%Z with 624%Z.
  set (d := denom (length data)).
  assert (Hd : (0 < d)%Z) by (unfold d, denom; lia).
  assert (Hdq : (0 < inject_Z d)%Q).
  { change 0%Q with (inject_Z 0). now rewrite <- Zlt_Qlt. }
  assert (Hbi : (0 <= Z.of_nat i <= d)%Z) by (unfold d, denom; lia).
  destruct (ratio_bounds Hbi Hd) as [H0 H1].
  assert (Hij : qz (Z.of_nat i) / qz d < qz (Z.of_nat j) / qz d).
  { unfold Qcdiv. apply Qcmult_lt_compat_r.
    - unfold Qclt. rewrite this_inv, this_qz.
      now apply Qinv_lt_0_compat.
    - apply qz_lt. lia. }
  rewrite lt_Fin, !lt_Fin_false. unfold Qclt, Qcle in *.
  rewrite !this_plus, !this_mult, !this_qz.
  change (this 0) with 0%Q in H0. change (this 1) with 1%Q in H1.
  change (inject_Z 16) with 16%Q. change (inject_Z 608) with 608%Q.
  change (inject_Z 624) with 624%Q.
  repeat split; lra.
Qed.

Lemma abscissa_in_area (data : list StockPoint) (i : nat) (ci : ChartPoint) :
  nth_error (chartPoints data) i = Some ci ->
  lt (x ci) padding = false /\ lt (sub width padding) (x ci) = false.
Proof.
  intros Hi. apply chartPoints_x in Hi. destruct Hi as [Hxi Hin].
  rewrite Hxi. unfold padding, width. rewrite sub_lit. unfold lit.
  change (640 - 16)%Z with 624%Z.
  set (d := denom (length data)).
  assert (Hd : (0 < d)%Z) by (unfold d, denom; lia).
  assert (Hbi : (0 <= Z.of_nat i <= d)%Z) by (unfold d, denom; lia).
  destruct (ratio_bounds Hbi Hd) as [H0 H1].
  rewrite !lt_Fin_false. unfold Qcle in *.
  rewrite !this_plus, !this_mult, !this_qz.
  change (this 0) with 0%Q in H0. change (this 1) with 1%Q in H1.
  change (inject_Z 16) with 16%Q. change (inject_Z 608) with 608%Q.
  change (inject_Z 624) with 624%Q.
  split; lra.
Qed.

(** X11.  The chart has one point per bar; the abscissa of every point lies
    between [padding] and [width - padding], and the abscissas grow with the
    index. *)
Theorem abscissas_ordered_in_area (data : list StockPoint) :
  length (chartPoints data) = length data /\
  (forall i ci,
     nth_error (chartPoints data) i = Some ci ->
     lt (x ci) padding = false /\ lt (sub width padding) (x ci) = false) /\
  (forall i j ci cj,
     nth_error (chartPoints data) i = Some ci ->
     nth_error (chartPoints data) j = Some cj ->
     (i < j)%nat -> lt (x ci) (x cj) = true).
Proof.
  split; [apply chartPoints_length|]. split.
  - intros i ci. apply abscissa_in_area.
  - intros i j ci cj Hi Hj Hlt.
    exact (proj1 (@abscissas_pair data i j ci cj Hi Hj Hlt)).
Qed.

Lemma abscissas_ordered_in_area_witness :
  let bar c := {| date := String.EmptyString; open := lit c; high := lit c;
                  low := lit c; close := lit c; volume := lit 1 |} in
  let data := [bar 1; bar 2; bar 3]%Z in
  lt (x (project data (bar 1%Z) 0)) (x (project data (bar 3%Z) 2)) = true /\
  lt (sub width padding) (x (project data (bar 3%Z) 2)) = false.
Proof.
  intros bar data.
  destruct (abscissas_ordered_in_area data) as (_ & Harea & Hord). split.
  - apply (Hord 0%nat 2%nat); [reflexivity|reflexivity|lia].
  - apply (Harea 2%nat). reflexivity.
Defined.

Lemma priceRange_bounds (data : list StockPoint) :
  data <> [] -> Forall finite_bar data -> Forall low_le_high data ->
  exists m M r,
    minPrice data = Fin m /\ priceRange data = Fin r /\ 0 < r /\ M - m <= r /\
    (forall p l, In p data -> low p = Fin l -> m <= l) /\
    (forall p h, In p data -> high p = Fin h -> h <= M).
Proof.
  intros Hne Hfin Hwf.
  destruct (price_bounds Hne Hfin) as (m & M & Hm & HM & _ & _ & Hlo & Hup).
  destruct (priceRange_pos Hne Hfin Hwf) as (m' & r & Hm' & Hr & Hpos).
  exists m, M, r. repeat split; auto.
  unfold priceRange in Hr. rewrite Hm, HM in Hr. cbn [sub] in Hr.
  unfold or_else in Hr. destruct (truthy (Fin (M - m))) eqn:T.
  - injection Hr as <-. apply Qcle_refl.
  - apply truthy_Fin in T. rewrite T. now apply Qclt_le_weak.
Qed.

(** X12.  Over finite bars with [low <= close <= high] every point is drawn
    between [y = padding] and [y = height - padding]. *)
Theorem ordinates_in_area (data : list StockPoint) (cp : ChartPoint) :
  Forall finite_bar data -> Forall close_in_range data ->
  In cp (chartPoints data) ->
  lt (y cp) padding = false /\ lt (sub height padding) (y cp) = false.
Proof.
  intros Hfin Hcr Hcp.
  destruct (chartPoints_In _ _ Hcp) as (p & i & Hp & ->).
  assert (Hne : data <> []) by (intros ->; destruct Hp).
  rewrite Forall_forall in Hfin, Hcr.
  destruct (Hfin p Hp) as (Hl & Hh & Hc).
  apply is_finite_Fin in Hl, Hh, Hc.
  destruct Hl as [l Hl], Hh as [h Hh], Hc as [c Hc].
  destruct (Hcr p Hp) as [Hcl Hch]. rewrite Hc, Hl in Hcl. rewrite Hh, Hc in Hch.
  apply lt_Fin_false in Hcl, Hch.
  assert (Hwf : Forall low_le_high data).
  { rewrite Forall_forall. intros q Hq. unfold low_le_high.
    destruct (Hfin q Hq) as (Hl' & Hh' & Hc').
    apply is_finite_Fin in Hl', Hh', Hc'.
    destruct Hl' as [l' Hl'], Hh' as [h' Hh'], Hc' as [c' Hc'].
    destruct (Hcr q Hq) as [H1 H2]. rewrite Hc', Hl' in H1. rewrite Hh', Hc' in H2.
    rewrite Hh', Hl'. apply lt_Fin_false. apply lt_Fin_false in H1, H2.
    eapply Qcle_trans; eauto. }
  assert (Hfin' : Forall finite_bar data) by now rewrite Forall_forall.
  destruct (priceRange_bounds Hne Hfin' Hwf)
    as (m & M & r & Hm & Hr & Hpos & HMr & Hlo & Hup).
  assert (Hr0 : r <> 0).
  { intros H. rewrite H in Hpos. exact (Qclt_not_eq _ _ Hpos eq_refl). }
  rewrite (@y_project data p i m r c Hm Hr Hr0 Hc).
  pose proof (Hlo p l Hp Hl) as Hml. pose proof (Hup p h Hp Hh) as HhM.
  unfold padding, height. rewrite sub_lit. unfold lit.
  change (280 - 16)%Z with 264%Z. rewrite !lt_Fin_false.
  assert (Ht : 0 <= (c - m) / r /\ (c - m) / r <= 1).
  { unfold Qcle, Qclt in *. rewrite this_div, this_minus.
    rewrite this_minus in HMr.
    change (this 0) with 0%Q in *. change (this 1) with 1%Q. split.
    - apply Qle_shift_div_l; [exact Hpos|]. lra.
    - apply Qle_shift_div_r; [exact Hpos|]. lra. }
  destruct Ht as [Ht0 Ht1]. remember ((c - m) / r) as t eqn:Et. clear Et.
  unfold Qcle in Ht0, Ht1 |- *.
  rewrite !this_minus, !this_mult, !this_qz.
  change (this 0) with 0%Q in Ht0. change (this 1) with 1%Q in Ht1.
  change (inject_Z 16) with 16%Q. change (inject_Z 248) with 248%Q.
  change (inject_Z 264) with 264%Q.
  split; lra.
Qed.

Lemma ordinates_in_area_witness :
  let bar l h c := {| date := String.EmptyString; open := lit c; high := lit h;
                      low := lit l; close := lit c; volume := lit 1 |} in
  let data := [bar 9 11 10; bar 11 13 12]%Z in
  lt (y (project data (bar 9 11 10)%Z 0)) padding = false /\
  lt (sub height padding) (y (project data (bar 9 11 10)%Z 0)) = false.
Proof.
  intros bar data.
  apply (@ordinates_in_area data (project data (bar 9 11 10)%Z 0)).
  - repeat constructor.
  - repeat constructor.
  - left. reflexivity.
Defined.

End PlotArea.

(** ** Tooltip placement *)

Section Tooltip.

Local Open Scope Qc_scope.

Lemma tooltip_x_Fin (xq : Qc) :
  exists tx,
    max2 padding
         (min2 (sub (Fin xq) (div (lit 180) (lit 2)))
               (sub (sub width padding) (lit 180))) = Fin tx /\
    qz 16 <= tx /\ tx + qz 180 <= qz 624 /\
    (qz 106 <= xq -> xq <= qz 534 -> tx = xq - qz 90).
Proof.
  assert (H90 : div (lit 180) (lit 2) = Fin (qz 90))
    by (apply num_eqb_eq; vm_compute; reflexivity).
  assert (H444 : sub (sub width padding) (lit 180) = Fin (qz 444))
    by (apply num_eqb_eq; vm_compute; reflexivity).
  rewrite H90, H444. cbn [sub]. unfold padding, lit.
  destruct (min2_Fin (xq - qz 90) (qz 444)) as (m1 & -> & Ha1 & Hb1 & Hor1).
  destruct (max2_Fin (qz 16) m1) as (m2 & -> & Ha2 & Hb2 & Hor2).
  exists m2. split; [reflexivity|].
  assert (Hm2 : m2 <= qz 444).
  { destruct Hor2 as [->| ->]; [discriminate|exact Hb1]. }
  split; [exact Ha2|]. split.
  - unfold Qcle in *. rewrite this_plus, !this_qz in *.
    unfold inject_Z in *. lra.
  - intros Hlo Hhi.
    assert (H1 : m1 = xq - qz 90).
    { destruct Hor1 as [->| ->]; [reflexivity|]. apply Qcle_antisym; [exact Ha1|].
      unfold Qcle in *. rewrite this_minus, !this_qz in *.
      unfold inject_Z in *. lra. }
    subst m1. destruct Hor2 as [->| ->]; [|reflexivity].
    apply Qcle_antisym; [|exact Hb2].
    unfold Qcle in *. rewrite this_minus, !this_qz in *.
    unfold inject_Z in *. lra.
Qed.

Ltac qc_lra :=
  unfold Qcle, Qclt in *;
  rewrite ?this_plus, ?this_minus, ?this_qz in *;
  unfold inject_Z in *; lra.

Lemma tooltip_y_Fin (yq : Qc) :
  exists ty,
    (if lt (sub (sub (Fin yq) (lit 70)) (lit 12)) padding
     then add (Fin yq) (lit 12)
     else sub (sub (Fin yq) (lit 70)) (lit 12)) = Fin ty /\
    (yq < qz 98 -> ty = yq + qz 12) /\
    (qz 98 <= yq -> ty + qz 70 = yq - qz 12) /\
    (qz 16 <= yq -> yq <= qz 264 -> qz 16 <= ty /\ ty + qz 70 <= qz 264).
Proof.
  unfold padding, lit. cbn [sub add].
  destruct (lt (Fin (yq - qz 70 - qz 12)) (Fin (qz 16))) eqn:E.
  - apply lt_Fin in E. exists (yq + qz 12). split; [reflexivity|].
    split; [reflexivity|]. split.
    + intros H. exfalso. qc_lra.
    + intros H1 H2. split; qc_lra.
  - apply lt_Fin_false in E. exists (yq - qz 70 - qz 12). split; [reflexivity|].
    split; [|split].
    + intros H. exfalso. qc_lra.
    + intros _. ring.
    + intros H1 H2. split; qc_lra.
Qed.

(** X13.  The tooltip of a point with finite coordinates: its box is
    [180] by [70]; horizontally it stays between [padding] and
    [width - padding], centred on the point when there is room; vertically it
    is 12 above the point, or 12 below it when the point is less than 98 from
    the top; for a point of the plot area the box is inside the plot area. *)
Theorem tooltip_inside_area (hp : ChartPoint) (xq yq : Qc) :
  x hp = Fin xq -> y hp = Fin yq ->
  exists cfg tx ty,
    tooltipConfig (Some hp) = Some cfg /\
    tooltipX cfg = Fin tx /\ tooltipY cfg = Fin ty /\
    tooltipWidth cfg = lit 180 /\ tooltipHeight cfg = lit 70 /\
    dateLabel cfg = date (point hp) /\
    qz 16 <= tx /\ tx + qz 180 <= qz 624 /\
    (qz 106 <= xq -> xq <= qz 534 -> tx = xq - qz 90) /\
    (yq < qz 98 -> ty = yq + qz 12) /\
    (qz 98 <= yq -> ty + qz 70 = yq - qz 12) /\
    (qz 16 <= yq -> yq <= qz 264 -> qz 16 <= ty /\ ty + qz 70 <= qz 264).
Proof.
  intros Hx Hy. cbn [tooltipConfig]. rewrite Hx, Hy.
  destruct (tooltip_x_Fin xq) as (tx & Htx & Hx1 & Hx2 & Hx3).
  destruct (tooltip_y_Fin yq) as (ty & Hty & Hy1 & Hy2 & Hy3).
  rewrite Htx, Hty. eexists. exists tx, ty. cbn [tooltipX tooltipY].
  split; [reflexivity|]. repeat (split; [first [reflexivity|assumption]|]).
  assumption.
Qed.

Lemma tooltip_inside_area_witness :
  let bar := {| date := String.EmptyString; open := lit 5; high := lit 6;
                low := lit 4; close := lit 5; volume := lit 1 |} in
  let hp := {| x := lit 16; y := lit 140; point := bar |} in
  exists cfg tx ty,
    tooltipConfig (Some hp) = Some cfg /\
    tooltipX cfg = Fin tx /\ tooltipY cfg = Fin ty /\
    qz 16 <= tx /\ tx + qz 180 <= qz 624 /\
    qz 16 <= ty /\ ty + qz 70 <= qz 264.
Proof.
  intros bar hp.
  destruct (@tooltip_inside_area hp (qz 16) (qz 140) eq_refl eq_refl)
    as (cfg & tx & ty & Hc & Htx & Hty & _ & _ & _ & H1 & H2 & _ & _ & _ & H3).
  exists cfg, tx, ty. repeat split; try assumption; apply H3; discriminate.
Defined.

End Tooltip.

(** ** Hit-testing on a scaled chart, at the edges and in between *)

Section HitTestingMore.

Local Open Scope Qc_scope.

Lemma clamp_cases (r : Qc) :
  exists c, min2 (lit 1) (max2 (lit 0) (Fin r)) = Fin c /\
            (r <= 0 -> c = 0) /\ (1 <= r -> c = 1) /\
            (0 <= r -> r <= 1 -> c = r).
Proof.
  unfold lit. change (qz 0) with 0. change (qz 1) with 1. unfold max2.
  destruct (lt (Fin 0) (Fin r)) eqn:E0.
  - apply lt_Fin in E0. unfold min2. destruct (lt (Fin r) (Fin 1)) eqn:E1.
    + apply lt_Fin in E1. exists r. split; [reflexivity|]. repeat split.
      * intros H. elim (Qcle_not_lt _ _ H E0).
      * intros H. elim (Qcle_not_lt _ _ H E1).
    + apply lt_Fin_false in E1. exists 1. split; [reflexivity|]. repeat split.
      * intros H. elim (Qcle_not_lt _ _ H E0).
      * intros _ H. now apply Qcle_antisym.
  - apply lt_Fin_false in E0. exists 0. split; [reflexivity|]. repeat split.
    + intros H. exfalso. apply (Qcle_not_lt 1 0); [|reflexivity].
      eapply Qcle_trans; [exact H|exact E0].
    + intros H _. now apply Qcle_antisym.
Qed.

Lemma ratio_Fin (px : Qc) :
  div (sub (Fin px) padding) (sub width (mul padding (lit 2))) =
  Fin ((px - qz 16) / qz 608).
Proof.
  change (sub width (mul padding (lit 2))) with (Fin (qz 608)).
  unfold padding, lit. cbn [sub]. apply div_Fin. apply qz_neq0. lia.
Qed.

(** The index for a pointer whose rescaled abscissa is that of bar [i]. *)
Lemma hitIndex_of_pointer (n i : nat) (event : MouseEvent) :
  (i < n)%nat ->
  pointerX event = Fin (qz 16 + qz (Z.of_nat i) / qz (denom n) * qz 608) ->
  hitIndex n event = of_nat i.
Proof.
  intros Hi Hp. unfold hitIndex. rewrite Hp, ratio_Fin.
  assert (Hd : qz (denom n) <> 0) by apply qz_denom_neq.
  assert (H608 : qz 608 <> 0) by (apply qz_neq0; lia).
  assert (Hratio :
    (qz 16 + qz (Z.of_nat i) / qz (denom n) * qz 608 - qz 16) / qz 608 =
    qz (Z.of_nat i) / qz (denom n)) by (field; auto).
  rewrite Hratio.
  assert (Hb : (0 <= Z.of_nat i <= denom n)%Z) by (unfold denom; lia).
  assert (Hdp : (0 < denom n)%Z) by (unfold denom; lia).
  destruct (ratio_bounds Hb Hdp) as [H0 H1].
  destruct (clamp_cases (qz (Z.of_nat i) / qz (denom n))) as (c & -> & _ & _ & Hc).
  rewrite (Hc H0 H1). unfold of_nat. rewrite sub_lit. unfold lit at 1.
  cbn [mul].
  assert (Hprod :
    qz (Z.of_nat i) / qz (denom n) * qz (Z.of_nat n - 1) = qz (Z.of_nat i)).
  { destruct (Nat.eq_dec n 1) as [->|Hn].
    - replace i with 0%nat by lia. change (qz (Z.of_nat 0)) with 0.
      unfold Qcdiv. ring.
    - rewrite (denom_ge2 (n := n)) by lia. field. apply qz_neq0. lia. }
  rewrite Hprod. exact (Math_round_lit (Z.of_nat i)).
Qed.

(** X14.  Hit-testing undoes the scaling of the rendered chart: on a chart
    rendered [w] wide at offset [l], a pointer at the rendered place of bar
    [i], that is [l + x_i * w / width], sets the hover index to [i]. *)
Theorem hit_testing_scaled (data : list StockPoint) (i : nat) (cp : ChartPoint)
  (l w : Qc) (h : HoverState) :
  nth_error (chartPoints data) i = Some cp -> 0 < w ->
  handleMouseMove (chartPoints data)
    {| clientX := add (Fin l) (div (mul (x cp) (Fin w)) width);
       boundsLeft := Fin l; boundsWidth := Fin w |} h = Some (of_nat i).
Proof.
  intros Hcp Hw. apply chartPoints_x in Hcp. destruct Hcp as [Hx Hi].
  assert (Hw0 : w <> 0).
  { intros H. rewrite H in Hw. exact (Qclt_not_eq _ _ Hw eq_refl). }
  assert (H640 : qz 640 <> 0) by (apply qz_neq0; lia).
  unfold handleMouseMove. rewrite chartPoints_length.
  destruct (length data) as [|n'] eqn:En; [lia|]. cbn [Nat.eqb].
  f_equal. apply hitIndex_of_pointer; [exact Hi|].
  unfold pointerX. cbn [clientX boundsLeft boundsWidth]. rewrite Hx.
  unfold width, lit. cbn [mul]. rewrite (div_Fin _ H640). cbn [add sub].
  rewrite (div_Fin _ Hw0). cbn [mul]. apply f_equal.
  field; repeat split; first [assumption|apply qz_denom_neq].
Qed.

Lemma hit_testing_scaled_witness :
  let bar c := {| date := String.EmptyString; open := lit c; high := lit c;
                  low := lit c; close := lit c; volume := lit 1 |} in
  let data := [bar 1; bar 2; bar 3]%Z in
  handleMouseMove (chartPoints data)
    {| clientX :=
         add (Fin (qz 40))
             (div (mul (x (project data (bar 2%Z) 1)) (Fin (qz 320))) width);
       boundsLeft := Fin (qz 40); boundsWidth := Fin (qz 320) |} None =
  Some (of_nat 1).
Proof.
  intros bar data.
  apply (@hit_testing_scaled data 1 (project data (bar 2%Z) 1) (qz 40) (qz 320)
           None eq_refl).
  reflexivity.
Defined.

(** X15.  A pointer on the left of the plot area, at any distance, selects the
    first bar, and a pointer on its right selects the last one. *)
Theorem hit_testing_edges (data : list StockPoint) (event : MouseEvent)
  (h : HoverState) :
  data <> [] -> pointerX event <> NaN ->
  (lt padding (pointerX event) = false ->
   handleMouseMove (chartPoints data) event h = Some (of_nat 0)) /\
  (lt (pointerX event) (sub width padding) = false ->
   handleMouseMove (chartPoints data) event h = Some (of_nat (length data - 1))).
Proof.
  intros Hne Hp. unfold handleMouseMove. rewrite chartPoints_length.
  destruct (length data) as [|n'] eqn:En; [destruct data; [contradiction|discriminate]|].
  cbn [Nat.eqb]. unfold hitIndex, of_nat. rewrite sub_lit.
  replace (Z.of_nat (S n') - 1)%Z with (Z.of_nat n') by lia.
  replace (S n' - 1)%nat with n' by lia.
  destruct (pointerX event) as [px| | |] eqn:Epx; try contradiction.
  - rewrite ratio_Fin.
    destruct (clamp_cases ((px - qz 16) / qz 608)) as (c & -> & Hc0 & Hc1 & _).
    unfold padding, width. rewrite sub_lit. change (640 - 16)%Z with 624%Z.
    unfold lit at 1 3 4. rewrite !lt_Fin_false. split; intros H.
    + rewrite Hc0.
      * unfold lit at 1. cbn [mul]. rewrite Qcmult_0_l.
        apply f_equal. exact (Math_round_lit 0).
      * unfold Qcle in *. rewrite this_div, this_minus, !this_qz in *.
        apply Qle_shift_div_r; [reflexivity|].
        unfold inject_Z in *. change (this 0) with 0%Q. lra.
    + rewrite Hc1.
      * unfold lit at 1. cbn [mul]. rewrite Qcmult_1_l.
        apply f_equal. exact (Math_round_lit (Z.of_nat n')).
      * unfold Qcle in *. rewrite this_div, this_minus, !this_qz in *.
        apply Qle_shift_div_l; [reflexivity|].
        unfold inject_Z in *. change (this 1) with 1%Q. lra.
  - split; intros H; [discriminate H|].
    change (min2 (lit 1) (max2 (lit 0) (div (sub PInf padding)
              (sub width (mul padding (lit 2)))))) with (Fin 1).
    unfold lit at 1. cbn [mul]. rewrite Qcmult_1_l.
    apply f_equal. exact (Math_round_lit (Z.of_nat n')).
  - split; intros H; [|discriminate H].
    change (min2 (lit 1) (max2 (lit 0) (div (sub NInf padding)
              (sub width (mul padding (lit 2)))))) with (Fin 0).
    unfold lit at 1. cbn [mul]. rewrite Qcmult_0_l.
    apply f_equal. exact (Math_round_lit 0).
Qed.

Lemma hit_testing_edges_witness :
  let bar c := {| date := String.EmptyString; open := lit c; high := lit c;
                  low := lit c; close := lit c; volume := lit 1 |} in
  let data := [bar 1; bar 2; bar 3]%Z in
  handleMouseMove (chartPoints data)
    {| clientX := lit 3; boundsLeft := lit 0; boundsWidth := lit 640 |} None =
  Some (of_nat 0).
Proof.
  intros bar data.
  refine (proj1 (@hit_testing_edges data _ None _ _) _).
  - discriminate.
  - vm_compute. discriminate.
  - vm_compute. reflexivity.
Defined.

End HitTestingMore.

(** ** The nearest bar *)

Section Nearest.

Local Open Scope Qc_scope.

Lemma half_spacing (t u : Qc) (J : Z) :
  0 < u ->
  (inject_Z J <= this t + (1 # 2))%Q -> (this t + (1 # 2) < inject_Z (J + 1))%Q ->
  qz 16 + t * u - Q2Qc (1 # 2) * u < qz 16 + qz J * u /\
  qz 16 + qz J * u <= qz 16 + t * u + Q2Qc (1 # 2) * u.
Proof.
  intros Hu Hlo Hhi. rewrite inject_Z_plus in Hhi.
  change (inject_Z 1) with 1%Q in Hhi.
  unfold Qclt, Qcle in *.
  rewrite !this_plus, !this_minus, !this_plus, !this_mult, !this_qz, !this_Q2Qc.
  change (this 0) with 0%Q in Hu. change (inject_Z 16) with 16%Q.
  split; nra.
Qed.

(** X16.  With two bars or more, a pointer inside the plot area selects a
    bar next to it: the abscissa of the selected bar is less than one step,
    [608 / (n - 1)], away from the pointer, on either side. *)
Theorem hit_testing_nearest (data : list StockPoint) (event : MouseEvent)
  (h : HoverState) (px : Qc) :
  (2 <= length data)%nat ->
  pointerX event = Fin px -> qz 16 <= px -> px <= qz 624 ->
  exists j cp xj,
    handleMouseMove (chartPoints data) event h = Some (of_nat j) /\
    nth_error (chartPoints data) j = Some cp /\ x cp = Fin xj /\
    px - qz 608 / qz (Z.of_nat (length data) - 1) < xj /\
    xj < px + qz 608 / qz (Z.of_nat (length data) - 1).
Proof.
  intros Hn Hp Hlo Hhi.
  set (n := length data) in *.
  assert (HD : qz (Z.of_nat n - 1) <> 0) by (apply qz_neq0; lia).
  assert (H608 : qz 608 <> 0) by (apply qz_neq0; lia).
  assert (HDpos : 0 < qz (Z.of_nat n - 1)).
  { change 0 with (qz 0). apply qz_lt. lia. }
  set (r := (px - qz 16) / qz 608).
  assert (Hr : 0 <= r /\ r <= 1).
  { unfold r, Qcle in *. rewrite this_div, this_minus, !this_qz in *.
    change (this 0) with 0%Q. change (this 1) with 1%Q.
    unfold inject_Z in *. split.
    - apply Qle_shift_div_l; [reflexivity|]. lra.
    - apply Qle_shift_div_r; [reflexivity|]. lra. }
  destruct Hr as [Hr0 Hr1].
  set (t := r * qz (Z.of_nat n - 1)).
  set (J := Qfloor (t + Q2Qc (1 # 2))%Qc).
  pose proof (Qfloor_le (t + Q2Qc (1 # 2))%Qc) as Hfl.
  pose proof (Qlt_floor (t + Q2Qc (1 # 2))%Qc) as Hfu.
  fold J in Hfl, Hfu.
  pose proof (this_half t) as Hh.
  assert (Ht0 : 0 <= t).
  { unfold t. rewrite <- (Qcmult_0_l (qz (Z.of_nat n - 1))).
    apply Qcmult_le_compat_r; [exact Hr0|now apply Qclt_le_weak]. }
  assert (Ht1 : t <= qz (Z.of_nat n - 1)).
  { unfold t. rewrite <- (Qcmult_1_l (qz (Z.of_nat n - 1))) at 2.
    apply Qcmult_le_compat_r; [exact Hr1|now apply Qclt_le_weak]. }
  assert (HJ : (0 <= J <= Z.of_nat n - 1)%Z).
  { unfold Qcle in Ht0, Ht1. rewrite this_qz in Ht1.
    change (this 0) with 0%Q in Ht0. split.
    - assert (H1 : (0 < J + 1)%Z).
      { rewrite Zlt_Qlt. change (inject_Z 0) with 0%Q. lra. }
      lia.
    - assert (H1 : (J < Z.of_nat n - 1 + 1)%Z).
      { rewrite Zlt_Qlt, inject_Z_plus. change (inject_Z 1) with 1%Q. lra. }
      lia. }
  assert (Hhit : hitIndex n event = lit J).
  { unfold hitIndex. rewrite Hp, ratio_Fin. fold r.
    destruct (clamp_cases r) as (c & -> & _ & _ & Hc). rewrite (Hc Hr0 Hr1).
    unfold of_nat. rewrite sub_lit. unfold lit at 1. cbn [mul]. reflexivity. }
  destruct (nth_error data (Z.to_nat J)) as [p|] eqn:Ep;
    [|apply nth_error_None in Ep; fold n in Ep; lia].
  exists (Z.to_nat J), (project data p (Z.to_nat J)).
  exists (qz 16 + qz J * (qz 608 / qz (Z.of_nat n - 1))).
  split; [|split; [|split]].
  - unfold handleMouseMove. rewrite chartPoints_length. fold n.
    destruct n as [|n']; [lia|]. cbn [Nat.eqb]. rewrite Hhit.
    unfold of_nat. now rewrite Z2Nat.id by lia.
  - rewrite chartPoints_nth, Ep. reflexivity.
  - rewrite x_project. fold n. rewrite (denom_ge2 Hn), Z2Nat.id by lia.
    apply f_equal. field. exact HD.
  - assert (Hu : 0 < qz 608 / qz (Z.of_nat n - 1))
      by (apply Qcdiv_pos; [reflexivity|exact HDpos]).
    assert (Hpx : px = qz 16 + t * (qz 608 / qz (Z.of_nat n - 1)))
      by (unfold t, r; field; split; assumption).
    assert (Hlo' : (inject_Z J <= this t + (1 # 2))%Q) by lra.
    assert (Hhi' : (this t + (1 # 2) < inject_Z (J + 1))%Q) by lra.
    destruct (@half_spacing t _ J Hu Hlo' Hhi') as [Ha Hb].
    rewrite Hpx at 1 2.
    remember (qz 608 / qz (Z.of_nat n - 1)) as u eqn:Eu.
    remember (t * u) as tu eqn:Etu. remember (qz J * u) as ju eqn:Eju.
    clear - Ha Hb Hu.
    unfold Qclt, Qcle in *.
    rewrite !this_plus in *. rewrite !this_minus in *.
    rewrite !this_plus in *. rewrite !this_mult in *.
    rewrite !this_qz in *. rewrite !this_Q2Qc in *.
    change (this 0) with 0%Q in Hu. change (inject_Z 16) with 16%Q in *.
    split; lra.
Qed.

Lemma hit_testing_nearest_witness :
  let bar c := {| date := String.EmptyString; open := lit c; high := lit c;
                  low := lit c; close := lit c; volume := lit 1 |} in
  let data := [bar 1; bar 2; bar 3]%Z in
  let move := {| clientX := lit 200; boundsLeft := lit 0;
                 boundsWidth := lit 640 |} in
  exists j cp xj,
    handleMouseMove (chartPoints data) move None = Some (of_nat j) /\
    nth_error (chartPoints data) j = Some cp /\ x cp = Fin xj /\
    qz 200 - qz 608 / qz 2 < xj /\ xj < qz 200 + qz 608 / qz 2.
Proof.
  intros bar data move.
  refine (@hit_testing_nearest data move None (qz 200) _ _ _ _).
  - simpl. lia.
  - apply num_eqb_eq. vm_compute. reflexivity.
  - discriminate.
  - discriminate.
Defined.

End Nearest.

(** ** From the pointer to the drawn hover *)

Section HoverView.

Local Open Scope Qc_scope.

Lemma StockChart_hover (w : list StockPoint) (i : nat) (cp : ChartPoint) :
  nth_error (chartPoints w) i = Some cp ->
  exists cfg,
    tooltipConfig (Some cp) = Some cfg /\
    StockChart w (Some (of_nat i)) =
      Svg (map (fun p => (x p, y p)) (chartPoints w))
          (Some {| groupKey := Some (of_nat i); lineX := x cp; dotX := x cp;
                   dotY := y cp; tooltip := cfg;
                   tooltipHigh := high (point cp);
                   tooltipLow := low (point cp) |}).
Proof.
  intros Hcp. eexists. split; [reflexivity|].
  unfold StockChart.
  assert (Hlen : (i < length w)%nat).
  { rewrite <- chartPoints_length. apply nth_error_Some. congruence. }
  destruct (length w) as [|n] eqn:En; [lia|]. cbn [Nat.eqb].
  cbn [hoveredPoint]. rewrite get_of_nat, Hcp. reflexivity.
Qed.

(** X17.  A pointer move at the abscissa of bar [i] of the window, on a chart shown
    at its logical width, makes the chart draw the hover of that bar: the
    line and the dot at its point, and the tooltip with its high and low.
    A pointer leave makes the chart draw no hover. *)
Theorem pointer_move_draws_hover (st : AppState) (i : nat) (cp : ChartPoint)
  (p : StockPoint) (l : Qc) :
  nth_error (window st) i = Some p ->
  nth_error (chartPoints (window st)) i = Some cp ->
  let move := {| clientX := add (Fin l) (x cp); boundsLeft := Fin l;
                 boundsWidth := width |} in
  point cp = p /\
  st_hoverIndex (step st (PointerMove move)) = Some (of_nat i) /\
  (exists cfg,
     tooltipConfig (Some cp) = Some cfg /\
     view (step st (PointerMove move)) =
       Svg (map (fun q => (x q, y q)) (chartPoints (window st)))
           (Some {| groupKey := Some (of_nat i); lineX := x cp; dotX := x cp;
                    dotY := y cp; tooltip := cfg; tooltipHigh := high p;
                    tooltipLow := low p |})) /\
  view (step st PointerLeave) =
    Svg (map (fun q => (x q, y q)) (chartPoints (window st))) None.
Proof.
  intros Hp Hcp move.
  assert (Hpt : point cp = p).
  { rewrite chartPoints_nth, Hp in Hcp. injection Hcp as <-. reflexivity. }
  assert (Hhover : st_hoverIndex (step st (PointerMove move)) = Some (of_nat i)).
  { cbn [step st_hoverIndex]. unfold handleMouseMove.
    pose proof (chartPoints_x _ _ Hcp) as [Hx Hi].
    rewrite chartPoints_length.
    destruct (length (window st)) as [|n] eqn:En; [lia|]. cbn [Nat.eqb].
    apply f_equal. subst move. rewrite Hx. now apply hitIndex_at_point. }
  split; [exact Hpt|]. split; [exact Hhover|]. split.
  - destruct (StockChart_hover _ _ Hcp) as (cfg & Hcfg & Hview).
    exists cfg. split; [exact Hcfg|].
    unfold view. rewrite Hhover. change (window (step st (PointerMove move)))
      with (window st). rewrite Hview, Hpt. reflexivity.
  - unfold view. change (window (step st PointerLeave)) with (window st).
    cbn [step st_hoverIndex handleMouseLeave]. unfold StockChart.
    assert (Hlen : (i < length (window st))%nat).
    { apply nth_error_Some. congruence. }
    destruct (length (window st)) as [|n]; [lia|]. reflexivity.
Qed.

Lemma pointer_move_draws_hover_witness :
  let bar c := {| date := String.EmptyString; open := lit c; high := lit c;
                  low := lit c; close := lit c; volume := lit 1 |} in
  let sd := {| ticker := String.EmptyString;
               data := [bar 1; bar 2; bar 3]%Z |} in
  let st := {| st_stockData := Some sd; st_selectedRange := R2D;
               st_hoverIndex := None |} in
  let cp := project (window st) (bar 3%Z) 1 in
  st_hoverIndex
    (step st (PointerMove {| clientX := add (Fin (qz 7)) (x cp);
                             boundsLeft := Fin (qz 7);
                             boundsWidth := width |})) = Some (of_nat 1).
Proof.
  intros bar sd st cp.
  exact (proj1 (proj2 (@pointer_move_draws_hover st 1 cp (bar 3%Z) (qz 7)
                         eq_refl eq_refl))).
Defined.

(** X18.  After a range change the stored index is read in the new window: when it
    is still in bounds, the hover is drawn on the bar that has this index in
    the new window. *)
Theorem stale_hover_reads_new_window (st : AppState) (range : RangeKey)
  (i : nat) (p : StockPoint) :
  st_hoverIndex st = Some (of_nat i) ->
  nth_error (filteredData (st_stockData st) range) i = Some p ->
  exists pts g,
    view (step st (RangeClick range)) = Svg pts (Some g) /\
    groupKey g = Some (of_nat i) /\
    tooltipHigh g = high p /\ tooltipLow g = low p.
Proof.
  intros Hh Hp. unfold view.
  change (window (step st (RangeClick range)))
    with (filteredData (st_stockData st) range).
  cbn [step st_hoverIndex]. rewrite Hh.
  set (w := filteredData (st_stockData st) range) in *.
  assert (Hcp : nth_error (chartPoints w) i = Some (project w p i)).
  { rewrite chartPoints_nth, Hp. reflexivity. }
  destruct (StockChart_hover _ _ Hcp) as (cfg & _ & Hview).
  rewrite Hview. eexists. eexists. split; [reflexivity|].
  repeat split.
Qed.

Lemma stale_hover_reads_new_window_witness :
  let bar c := {| date := String.EmptyString; open := lit c; high := lit c;
                  low := lit c; close := lit c; volume := lit 1 |} in
  let sd := {| ticker := String.EmptyString;
               data := [bar 1; bar 2; bar 3]%Z |} in
  let st := {| st_stockData := Some sd; st_selectedRange := RMAX;
               st_hoverIndex := Some (of_nat 1) |} in
  exists pts g,
    view (step st (RangeClick R2D)) = Svg pts (Some g) /\
    groupKey g = Some (of_nat 1) /\
    tooltipHigh g = lit 3 /\ tooltipLow g = lit 3.
Proof.
  intros bar sd st.
  exact (@stale_hover_reads_new_window st R2D 1 (bar 3%Z) eq_refl eq_refl).
Defined.

(** X19.  Once the series is loaded, and as long as the pointer positions are
    numbers, the stored hover index is unset or the index of a bar of the
    series: it may be stale for the window, never for the series. *)
Theorem hover_index_within_series (sd : StockData) (es : list Event) :
  (forall parsed, ~ In (DataLoaded parsed) es) ->
  (forall event, In (PointerMove event) es -> pointerX event <> NaN) ->
  let st := run (DataLoaded sd :: es) initialState in
  st_stockData st = Some sd /\
  (st_hoverIndex st = None \/
   exists j, st_hoverIndex st = Some (of_nat j) /\ (j < length (data sd))%nat).
Proof.
  intros Hload Hmove. cbn [run fold_left].
  set (st0 := step initialState (DataLoaded sd)).
  assert (H0 : st_stockData st0 = Some sd /\
               (st_hoverIndex st0 = None \/
                exists j, st_hoverIndex st0 = Some (of_nat j) /\
                          (j < length (data sd))%nat))
    by (split; [reflexivity|left; reflexivity]).
  clearbody st0. revert st0 H0.
  induction es as [|e es IH]; intros st0 H0; [exact H0|].
  cbn [fold_left]. apply IH.
  - intros parsed Hin. apply (Hload parsed). now right.
  - intros event Hin. apply Hmove. now right.
  - destruct H0 as [Hsd Hh]. destruct e as [parsed|range|event|].
    + elim (Hload parsed). now left.
    + split; [exact Hsd|exact Hh].
    + split; [exact Hsd|]. cbn [step st_hoverIndex]. unfold handleMouseMove.
      rewrite chartPoints_length.
      destruct (length (window st0)) as [|n] eqn:En; [exact Hh|].
      cbn [Nat.eqb]. right.
      assert (Hp : pointerX event <> NaN) by (apply Hmove; now left).
      destruct (@hitIndex_range (S n) event ltac:(lia) Hp) as (j & Hj & Hlt).
      exists j. split; [now rewrite Hj|].
      assert (Hle : (length (window st0) <= length (data sd))%nat).
      { unfold window. rewrite Hsd.
        destruct (filteredData_suffix sd (st_selectedRange st0)) as [pre Hpre].
        apply (f_equal (@length StockPoint)) in Hpre.
        rewrite length_app in Hpre. lia. }
      lia.
    + split; [exact Hsd|left; reflexivity].
Qed.

Lemma hover_index_within_series_witness :
  let bar c := {| date := String.EmptyString; open := lit c; high := lit c;
                  low := lit c; close := lit c; volume := lit 1 |} in
  let sd := {| ticker := String.EmptyString;
               data := [bar 1; bar 2; bar 3]%Z |} in
  let move := {| clientX := lit 600; boundsLeft := lit 0;
                 boundsWidth := lit 640 |} in
  let st := run [DataLoaded sd; PointerMove move; RangeClick R1D] initialState in
  st_hoverIndex st = None \/
  exists j, st_hoverIndex st = Some (of_nat j) /\ (j < 3)%nat.
Proof.
  intros bar sd move st.
  refine (proj2 (@hover_index_within_series sd
                   [PointerMove move; RangeClick R1D] _ _)).
  - intros parsed [H|[H|[]]]; discriminate H.
  - intros event [H|[H|[]]]; [|discriminate H].
    injection H as <-. vm_compute. discriminate.
Defined.

End HoverView.
